(** * Verification of the trend-following strategy research code

    Shallow embedding of [src/strategy_research/final_strategy.py] and
    [src/strategy_research/backtest_runner.py]: the indicator functions
    (SMA, ATR, the Donchian channel, ADX), the per-bar decision logic
    [Strategy.next] of the two strategy classes, and the objective
    function [optim_func] of the optimizer.

    Prices and indicator values are idealised as exact rationals [Q]; an
    undefined pandas/numpy value (NaN) is [None] in an [option Q].  *)

From Stdlib Require Import QArith Qround Qminmax Qabs ZArith List Bool Sorted Lia Lqa.
Import ListNotations.

(** Boolean strict comparison on [Q]. *)
Definition Qltb (x y : Q) : bool := negb (Qle_bool y x).

(** Python's [x > y] where either side may be NaN: a comparison with NaN
    is [False]. *)
Definition gt_nan (x y : option Q) : bool :=
  match x, y with
  | Some a, Some b => Qltb b a
  | _, _ => false
  end.

(** Python's [int(x)] on a finite float: truncation toward zero. *)
Definition Qtrunc (q : Q) : Z := Z.quot (Qnum q) (Zpos (Qden q)).

Module Indicators.

(** A row of the OHLCV data frame. *)
Record Bar := mkBar { Open : Q; High : Q; Low : Q; Close : Q; Volume : Q }.

(** The [n] values ending at position [i] (positions [i+1-n .. i]). *)
Definition window {A} (n i : nat) (xs : list A) : list A :=
  firstn n (skipn (S i - n) xs).

Fixpoint all_defined (l : list (option Q)) : option (list Q) :=
  match l with
  | [] => Some []
  | None :: _ => None
  | Some x :: r =>
      match all_defined r with
      | Some r' => Some (x :: r')
      | None => None
      end
  end.

(** [pd.Series(xs).rolling(n).agg()] with the default [min_periods = n]:
    position [i] is NaN while fewer than [n] values are available, or
    when one of the [n] values of the window is NaN. *)
Definition rolling (agg : list Q -> Q) (n : nat) (xs : list (option Q))
  : list (option Q) :=
  map (fun i => if S i <? n then None
                else option_map agg (all_defined (window n i xs)))
      (seq 0 (length xs)).

Definition sum (l : list Q) : Q := fold_right Qplus 0 l.
Definition mean (l : list Q) : Q := sum l / inject_Z (Z.of_nat (length l)).
Definition lmax (l : list Q) : Q :=
  match l with [] => 0 | x :: r => fold_left Qmax r x end.
Definition lmin (l : list Q) : Q :=
  match l with [] => 0 | x :: r => fold_left Qmin r x end.

(** [Series.shift(1)]: same length, first entry NaN. *)
Definition shift1 (l : list (option Q)) : list (option Q) :=
  match l with [] => [] | _ => None :: removelast l end.

(** [def SMA(values, n): return pd.Series(values).rolling(n).mean()] *)
Definition SMA (values : list Q) (n : nat) : list (option Q) :=
  rolling mean n (map Some values).

Fixpoint defined (l : list (option Q)) : list Q :=
  match l with
  | [] => []
  | Some x :: r => x :: defined r
  | None :: r => defined r
  end.

(** [DataFrame.max(axis=1)] on one row: NaN entries are skipped
    ([skipna=True]); NaN only if the whole row is NaN. *)
Definition max_skipna (row : list (option Q)) : option Q :=
  match defined row with
  | [] => None
  | x :: r => Some (fold_left Qmax r x)
  end.

(** The true-range column built inside [ATR]:
    [prev_close = close.shift(1)];
    [tr = DataFrame({tr1: high-low, tr2: |high-prev_close|,
                     tr3: |low-prev_close|}).max(axis=1)]. *)
Definition true_range (df : list Bar) : list (option Q) :=
  let prev_close := shift1 (map (fun b => Some (Close b)) df) in
  map (fun '(b, pc) =>
         max_skipna [Some (High b - Low b);
                     option_map (fun c => Qabs (High b - c)) pc;
                     option_map (fun c => Qabs (Low b - c)) pc])
      (combine df prev_close).

(** [def ATR(df, n): ... return tr.rolling(n).mean()].  The
    [except Exception] fallback (a zero series when a column is missing)
    cannot arise here: a [Bar] always has its columns. *)
Definition ATR (df : list Bar) (n : nat) : list (option Q) :=
  rolling mean n (true_range df).

(** [pd.Series(x).rolling(donchian_period).max().shift(1)] over [High]. *)
Definition donchian_high (n : nat) (highs : list Q) : list (option Q) :=
  shift1 (rolling lmax n (map Some highs)).

(** [pd.Series(x).rolling(donchian_period).min().shift(1)] over [Low]. *)
Definition donchian_low (n : nat) (lows : list Q) : list (option Q) :=
  shift1 (rolling lmin n (map Some lows)).

End Indicators.

Module Engine.

(** The class attributes of the strategy classes, as one record. *)
Record Params := mkParams {
  n_atr : nat;
  atr_multiplier : Q;
  ma_period : nat;
  donchian_period : nat;
  adx_threshold : Q;
  risk_per_trade : Q }.

(** [FinalLowDrawdownStrategy] defaults. *)
Definition final_defaults : Params :=
  mkParams 14 4 800 100 25 (1 # 100).

(** [RiskManagedStrategy] defaults. *)
Definition risk_managed_defaults : Params :=
  mkParams 14 4 200 50 25 (2 # 100).

(** The two strategy classes differ in their warm-up guard only. *)
Inductive Variant := FinalLowDrawdown | RiskManaged.

(** The bound of the first line of [next]:
    [if len(self.data) < self.ma_period + 5: return] (final_strategy.py),
    [if len(self.data) < max(self.ma_period, self.donchian_period) + 5:
     return] (backtest_runner.py). *)
Definition warmup (v : Variant) (p : Params) : nat :=
  match v with
  | FinalLowDrawdown => ma_period p + 5
  | RiskManaged => Nat.max (ma_period p) (donchian_period p) + 5
  end.

(** What [next] reads on the current bar: [len(self.data)], the close
    and the last value ([[-1]]) of each indicator. *)
Record View := mkView {
  len_data : nat;
  price : Q;
  ma : option Q;
  adx : option Q;
  atr : option Q;
  dhigh : option Q;
  dlow : option Q }.

(** An open trade of the execution engine, as [next] sees it. *)
Record Trade := mkTrade { is_long : bool; size : Z; sl : Q }.

Inductive Order :=
| Buy (units : Z) (stop : Q)     (* self.buy(sl=sl, size=units) *)
| Sell (units : Z) (stop : Q).   (* self.sell(sl=sl, size=units) *)

Definition order_size (o : option Order) : option Z :=
  match o with
  | Some (Buy u _) | Some (Sell u _) => Some u
  | None => None
  end.

Inductive Exn := ValueError | OverflowError.

(** [int(a / b)] with numpy float semantics for a finite [b]: division
    by zero gives [inf] (int raises OverflowError) or, for [0/0], [nan]
    (int raises ValueError). *)
Definition py_int_div (a b : Q) : Exn + Z :=
  if Qeq_bool b 0 then
    (if Qeq_bool a 0 then inl ValueError else inl OverflowError)
  else inr (Qtrunc (a / b)).

(** Control flow out of the [if not self.position:] block: an early
    [return], or falling through to the trailing-stop loop with at most
    one order placed. *)
Inductive Flow := Return | Continue (o : option Order).

(** The [if not self.position:] block of [next]. *)
Definition flat_entry (p : Params) (equity : Q) (b : View)
    (uptrend strong_trend : bool) : Exn + Flow :=
  let risk_amount := equity * risk_per_trade p in
  match option_map (fun a => a * atr_multiplier p) (atr b) with
  | None =>
      (* stop_distance is NaN: [NaN == 0] is False, then
         [int(risk_amount / NaN)] raises *)
      inl ValueError
  | Some stop_distance =>
      if Qeq_bool stop_distance 0 then inr Return else
      match py_int_div risk_amount stop_distance with
      | inl e => inl e
      | inr units =>
        match py_int_div (equity * (95 # 100)) (price b) with
        | inl e => inl e
        | inr max_units =>
          let units := Z.min units max_units in
          if (units <? 1)%Z then inr Return else
          if uptrend && strong_trend && gt_nan (Some (price b)) (dhigh b)
          then inr (Continue (Some (Buy units (price b - stop_distance))))
          else if negb uptrend && strong_trend
                  && gt_nan (dlow b) (Some (price b))
          then inr (Continue (Some (Sell units (price b + stop_distance))))
          else inr (Continue None)
        end
      end
  end.

(** The body of [for trade in self.trades:].  With a NaN ATR the
    candidate is NaN and neither comparison holds. *)
Definition ratchet (price : Q) (atr : option Q) (atr_multiplier : Q)
    (trade : Trade) : Trade :=
  match atr with
  | None => trade
  | Some a =>
      if is_long trade then
        let new_sl := price - a * atr_multiplier in
        if Qltb (sl trade) new_sl
        then mkTrade (is_long trade) (size trade) new_sl else trade
      else
        let new_sl := price + a * atr_multiplier in
        if Qltb new_sl (sl trade)
        then mkTrade (is_long trade) (size trade) new_sl else trade
  end.

(** [Strategy.next] for one bar.  [self.position] is non-empty exactly
    when there are open trades ([exclusive_orders=True]).  The result is
    the order placed on this bar and the open trades with their updated
    stops, or the exception raised. *)
Definition next (v : Variant) (p : Params) (equity : Q)
    (trades : list Trade) (b : View) : Exn + (option Order * list Trade) :=
  if len_data b <? warmup v p then inr (None, trades) else
  match ma b with
  | None => inr (None, trades)
  | Some m =>
      let uptrend := Qltb m (price b) in
      let strong_trend := gt_nan (adx b) (Some (adx_threshold p)) in
      let flow :=
        match trades with
        | [] => flat_entry p equity b uptrend strong_trend
        | _ :: _ => inr (Continue None)
        end in
      match flow with
      | inl e => inl e
      | inr Return => inr (None, trades)
      | inr (Continue o) =>
          inr (o, map (ratchet (price b) (atr b) (atr_multiplier p)) trades)
      end
  end.

(** The stop prices of one open trade over successive bars, each bar
    given with the equity the engine reports on it. *)
Fixpoint stop_path (v : Variant) (p : Params) (t : Trade)
    (bars : list (Q * View)) : list Q :=
  match bars with
  | [] => [sl t]
  | (equity, b) :: rest =>
      sl t :: match next v p equity [t] b with
              | inr (_, [t']) => stop_path v p t' rest
              | _ => []
              end
  end.

(** The view [next] gets at position [i] of a data frame, with the
    indicators of [init]; the ADX value is supplied. *)
Definition view_at (p : Params) (df : list Indicators.Bar) (i : nat)
    (adx_value : option Q) : View :=
  mkView (S i)
    (nth i (map Indicators.Close df) 0)
    (nth i (Indicators.SMA (map Indicators.Close df) (ma_period p)) None)
    adx_value
    (nth i (Indicators.ATR df (n_atr p)) None)
    (nth i (Indicators.donchian_high (donchian_period p)
              (map Indicators.High df)) None)
    (nth i (Indicators.donchian_low (donchian_period p)
              (map Indicators.Low df)) None).

End Engine.

Module Optimizer.

(** The fields of the statistics series read by [optim_func]. *)
Record Stats := mkStats {
  n_trades : Z;          (* series['# Trades'] *)
  max_drawdown : Q;      (* series['Max. Drawdown [%]'] *)
  return_pct : Q }.      (* series['Return [%]'] *)

(** A numpy float64 result. *)
Inductive F64 := Fin (q : Q) | PosInf | NegInf | NaN.

(** numpy float64 division [a / b] with [b >= +0.0]. *)
Definition np_div (a b : Q) : F64 :=
  if Qeq_bool b 0 then
    (if Qltb 0 a then PosInf else if Qltb a 0 then NegInf else NaN)
  else Fin (a / b).

(** [def optim_func(series)]. *)
Definition optim_func (s : Stats) : F64 :=
  if (n_trades s <? 10)%Z then Fin (-1) else
  if Qltb (max_drawdown s) (-20) then Fin (-1) else
  np_div (return_pct s) (Qabs (max_drawdown s)).

End Optimizer.

(** [def ADX(df, n)], shared by both files.  The intermediate series are
    numpy/pandas float64 values: the rolling sums are NaN ([None]) during
    their warm-up, and the divisions follow IEEE semantics (infinities and
    NaN, no exception).  Zeros are [+0.0]. *)
Module Directional.
Import Indicators Optimizer.

(** Negation, addition and absolute value on float64 values. *)
Definition f_neg (x : F64) : F64 :=
  match x with
  | Fin a => Fin (- a)
  | PosInf => NegInf
  | NegInf => PosInf
  | NaN => NaN
  end.

Definition f_add (x y : F64) : F64 :=
  match x, y with
  | NaN, _ | _, NaN => NaN
  | PosInf, NegInf | NegInf, PosInf => NaN
  | PosInf, _ | _, PosInf => PosInf
  | NegInf, _ | _, NegInf => NegInf
  | Fin a, Fin b => Fin (a + b)
  end.

Definition f_sub (x y : F64) : F64 := f_add x (f_neg y).

Definition f_abs (x : F64) : F64 :=
  match x with
  | Fin a => Fin (Qabs a)
  | PosInf | NegInf => PosInf
  | NaN => NaN
  end.

(** The sign of a finite operand multiplied with an infinity. *)
Definition inf_times (pos : bool) (b : Q) : F64 :=
  if Qltb 0 b then (if pos then PosInf else NegInf)
  else if Qltb b 0 then (if pos then NegInf else PosInf)
  else NaN.

Definition f_mul (x y : F64) : F64 :=
  match x, y with
  | NaN, _ | _, NaN => NaN
  | Fin a, Fin b => Fin (a * b)
  | PosInf, Fin b | Fin b, PosInf => inf_times true b
  | NegInf, Fin b | Fin b, NegInf => inf_times false b
  | PosInf, PosInf | NegInf, NegInf => PosInf
  | PosInf, NegInf | NegInf, PosInf => NegInf
  end.

(** Division; a zero divisor is [+0.0], so [x / 0] has the sign of [x]. *)
Definition f_div (x y : F64) : F64 :=
  match x, y with
  | NaN, _ | _, NaN => NaN
  | Fin a, Fin b => np_div a b
  | Fin _, (PosInf | NegInf) => Fin 0
  | (PosInf | NegInf), (PosInf | NegInf) => NaN
  | PosInf, Fin b => if Qltb b 0 then NegInf else PosInf
  | NegInf, Fin b => if Qltb b 0 then PosInf else NegInf
  end.

(** A pandas value (NaN as [None]) as a float64. *)
Definition of_opt (o : option Q) : F64 :=
  match o with Some q => Fin q | None => NaN end.

(** [up = high - high.shift(1)] *)
Definition up (df : list Bar) : list (option Q) :=
  map (fun '(h, ph) => option_map (fun x => h - x) ph)
      (combine (map High df) (shift1 (map (fun b => Some (High b)) df))).

(** [down = low.shift(1) - low] *)
Definition down (df : list Bar) : list (option Q) :=
  map (fun '(l, pl) => option_map (fun x => x - l) pl)
      (combine (map Low df) (shift1 (map (fun b => Some (Low b)) df))).

(** [np.where((a > b) & (a > 0), a, 0)] on one position: a comparison
    with NaN is [False]. *)
Definition dm (a b : option Q) : Q :=
  match a with
  | Some x => if gt_nan (Some x) b && Qltb 0 x then x else 0
  | None => 0
  end.

(** [pos_dm = np.where((up > down) & (up > 0), up, 0)] *)
Definition pos_dm (df : list Bar) : list Q :=
  map (fun '(u, d) => dm u d) (combine (up df) (down df)).

(** [neg_dm = np.where((down > up) & (down > 0), down, 0)] *)
Definition neg_dm (df : list Bar) : list Q :=
  map (fun '(u, d) => dm d u) (combine (up df) (down df)).

(** [tr = ATR(df, 1).values; tr_s = pd.Series(tr).rolling(n).sum()] *)
Definition tr_s (df : list Bar) (n : nat) : list (option Q) :=
  rolling sum n (ATR df 1).

Definition pos_dm_s (df : list Bar) (n : nat) : list (option Q) :=
  rolling sum n (map Some (pos_dm df)).

Definition neg_dm_s (df : list Bar) (n : nat) : list (option Q) :=
  rolling sum n (map Some (neg_dm df)).

(** [100 * (dm_s / tr_s)], position by position. *)
Definition di (dm_s tr_s : list (option Q)) : list F64 :=
  map (fun '(s, t) => f_mul (Fin 100) (f_div (of_opt s) (of_opt t)))
      (combine dm_s tr_s).

(** [pos_di = 100 * (pos_dm_s / tr_s)] *)
Definition pos_di (df : list Bar) (n : nat) : list F64 :=
  di (pos_dm_s df n) (tr_s df n).

(** [neg_di = 100 * (neg_dm_s / tr_s)] *)
Definition neg_di (df : list Bar) (n : nat) : list F64 :=
  di (neg_dm_s df n) (tr_s df n).

(** [dx = 100 * (abs(pos_di - neg_di) / (pos_di + neg_di))] *)
Definition dx (df : list Bar) (n : nat) : list F64 :=
  map (fun '(a, b) => f_mul (Fin 100) (f_div (f_abs (f_sub a b)) (f_add a b)))
      (combine (pos_di df n) (neg_di df n)).

(** The DX column as a pandas column with NaN as [None]; [None] (not
    modelled) when a DX value is infinite. *)
Fixpoint finite_or_nan (xs : list F64) : option (list (option Q)) :=
  match xs with
  | [] => Some []
  | x :: r =>
      match finite_or_nan r with
      | None => None
      | Some r' =>
          match x with
          | Fin q => Some (Some q :: r')
          | NaN => Some (None :: r')
          | PosInf | NegInf => None
          end
      end
  end.

(** [adx = dx.rolling(n).mean()].  The model covers DX columns without
    infinite values (pandas' rolling mean over infinities is not
    modelled: the result is then [None]). *)
Definition ADX (df : list Bar) (n : nat) : option (list (option Q)) :=
  option_map (rolling mean n) (finite_or_nan (dx df n)).

(** A DI or DX value that is NaN or a percentage in [0, 100]. *)
Definition nan_or_percent (x : F64) : Prop :=
  x = NaN \/ exists q, x = Fin q /\ 0 <= q <= 100.

(** A bar with [low <= close <= high]. *)
Definition well_formed (b : Bar) : bool :=
  Qle_bool (Low b) (Close b) && Qle_bool (Close b) (High b).

(** A bar whose high, low and close are all [c]. *)
Definition flat_at (c : Q) (b : Bar) : bool :=
  Qeq_bool (High b) c && Qeq_bool (Low b) c && Qeq_bool (Close b) c.

End Directional.

(** ** Concrete inputs *)
Module Scenarios.
Import Indicators Engine.

(** Three bars: the first true range has no previous close. *)
Definition bars3 : list Bar :=
  [mkBar 10 12 9 11 0; mkBar 11 13 10 12 0; mkBar 12 14 11 13 0].

(** 205 bars of a steady rise, [Close] from 100 to 304. *)
Definition ramp : list Bar :=
  map (fun i => let q := inject_Z (Z.of_nat (100 + i)) in mkBar q q q q 0)
      (seq 0 205).

(** [RiskManagedStrategy] with an ATR window longer than the trend
    filter. *)
Definition long_atr_params : Params := mkParams 300 4 200 50 25 (2 # 100).

(** The same parameter record with another risk fraction. *)
Definition with_risk (p : Params) (r : Q) : Params :=
  mkParams (n_atr p) (atr_multiplier p) (ma_period p) (donchian_period p)
    (adx_threshold p) r.

(** A long-entry bar: close above the trend filter and the channel high,
    ADX above the threshold, ATR 980 (stop distance 3920). *)
Definition entry_view : View :=
  mkView 1000 30000 (Some 25000) (Some 30) (Some 980) (Some 29000)
    (Some 20000).


(** 210 bars at a constant price 5. *)
Definition flat_bars : list Bar := repeat (mkBar 5 5 5 5 1) 210.

End Scenarios.

(** * Proofs *)

(** ** Lists and pandas rolling windows *)

Lemma nth_map_lt {A B} (f : A -> B) (l : list A) i d d0 :
  (i < length l)%nat -> nth i (map f l) d = f (nth i l d0).
Proof.
  intros H. rewrite (nth_indep (map f l) d (f d0)) by (rewrite length_map; lia).
  apply map_nth.
Qed.

Lemma In_firstn_l {A} (x : A) n l : In x (firstn n l) -> In x l.
Proof.
  intros H. rewrite <- (firstn_skipn n l). apply in_or_app. now left.
Qed.

Lemma In_skipn_l {A} (x : A) n l : In x (skipn n l) -> In x l.
Proof.
  intros H. rewrite <- (firstn_skipn n l). apply in_or_app. now right.
Qed.

Lemma length_shift1 l : length (Indicators.shift1 l) = length l.
Proof.
  destruct l as [|a l']; [reflexivity|].
  change (S (length (removelast (a :: l'))) = S (length l')).
  assert (Hne : a :: l' <> []) by discriminate.
  pose proof (f_equal (@length _) (@app_removelast_last _ (a :: l') None Hne)) as E.
  rewrite length_app in E. cbn [length] in E. lia.
Qed.

Lemma nth_shift1_0 l : nth 0 (Indicators.shift1 l) None = None.
Proof. now destruct l. Qed.

Lemma nth_shift1_S l j :
  (S j < length l)%nat -> nth (S j) (Indicators.shift1 l) None = nth j l None.
Proof.
  intros H. destruct l as [|a l']; [simpl in H; lia|].
  change (nth j (removelast (a :: l')) None = nth j (a :: l') None).
  assert (Hne : a :: l' <> []) by discriminate.
  pose proof (@app_removelast_last _ (a :: l') None Hne) as E.
  pose proof (f_equal (@length _) E) as EL.
  rewrite length_app in EL. cbn [length] in EL, H.
  rewrite E at 2. rewrite app_nth1; [reflexivity | lia].
Qed.

Lemma length_rolling agg n xs :
  length (Indicators.rolling agg n xs) = length xs.
Proof. unfold Indicators.rolling. now rewrite length_map, length_seq. Qed.

Lemma nth_rolling agg n xs i :
  (i < length xs)%nat ->
  nth i (Indicators.rolling agg n xs) None =
  if S i <? n then None
  else option_map agg (Indicators.all_defined (Indicators.window n i xs)).
Proof.
  intros H. unfold Indicators.rolling.
  rewrite (nth_map_lt _ _ _ _ 0%nat) by (rewrite length_seq; exact H).
  now rewrite seq_nth.
Qed.

Lemma all_defined_map_Some l : Indicators.all_defined (map Some l) = Some l.
Proof. induction l as [|x l IH]; simpl; [|rewrite IH]; reflexivity. Qed.

Lemma all_defined_total l :
  (forall x, In x l -> x <> None) ->
  exists l', Indicators.all_defined l = Some l'.
Proof.
  induction l as [|o l IH]; intros H; [now exists []|].
  destruct o as [x|]; [|exfalso; apply (H None); [left|]; reflexivity].
  destruct IH as [l' E]; [intros y Hy; apply H; now right|].
  exists (x :: l'). simpl. now rewrite E.
Qed.

Lemma window_map {A B} (f : A -> B) n i l :
  Indicators.window n i (map f l) = map f (Indicators.window n i l).
Proof. unfold Indicators.window. now rewrite skipn_map, firstn_map. Qed.

Lemma In_window {A} (x : A) n i l : In x (Indicators.window n i l) -> In x l.
Proof.
  unfold Indicators.window. intros H. eapply In_skipn_l, In_firstn_l, H.
Qed.

(** A full window ending at [j] only reads the first [j+1] values. *)
Lemma window_firstn {A} n j (l : list A) :
  (n <= S j)%nat ->
  Indicators.window n j l = skipn (S j - n) (firstn (S j) l).
Proof.
  intros H. unfold Indicators.window. rewrite firstn_skipn_comm.
  now replace (S j - n + n)%nat with (S j) by lia.
Qed.

Lemma window_nonempty {A} n j (l : list A) :
  (1 <= n)%nat -> (n <= S j)%nat -> (j < length l)%nat ->
  Indicators.window n j l <> [].
Proof.
  intros H1 H2 H3 E. pose proof (f_equal (@length _) E) as EL.
  unfold Indicators.window in EL. rewrite length_firstn, length_skipn in EL.
  cbn [length] in EL. lia.
Qed.

(** The Donchian channel at position [i]: NaN at [i = 0] and while the
    window is incomplete, else the aggregate of positions [i-n .. i-1]. *)
Lemma nth_shift_rolling agg n xs i :
  (i < length xs)%nat ->
  nth i (Indicators.shift1 (Indicators.rolling agg n (map Some xs))) None =
  match i with
  | O => None
  | S j => if S j <? n then None else Some (agg (Indicators.window n j xs))
  end.
Proof.
  intros H. destruct i as [|j]; [apply nth_shift1_0|].
  rewrite nth_shift1_S by (rewrite length_rolling, length_map; exact H).
  rewrite nth_rolling by (rewrite length_map; lia).
  rewrite window_map, all_defined_map_Some. reflexivity.
Qed.

Lemma Qmax_or x y : Qmax x y = x \/ Qmax x y = y.
Proof. unfold Qmax, GenericMinMax.gmax. destruct (x ?= y); auto. Qed.

Lemma Qmin_or x y : Qmin x y = x \/ Qmin x y = y.
Proof. unfold Qmin, GenericMinMax.gmin. destruct (x ?= y); auto. Qed.

(** A fold with a selecting operator returns one of the folded values. *)
Lemma fold_select_In (op : Q -> Q -> Q) :
  (forall x y, op x y = x \/ op x y = y) ->
  forall r x, In (fold_left op r x) (x :: r).
Proof.
  intros Hop r. induction r as [|y r IH]; intros x; simpl; [now left|].
  destruct (IH (op x y)) as [H|H].
  - rewrite <- H. destruct (Hop x y) as [E|E]; rewrite E; auto.
  - auto.
Qed.

Lemma lmax_In l : l <> [] -> In (Indicators.lmax l) l.
Proof.
  destruct l as [|x r]; [congruence|]. intros _.
  apply fold_select_In, Qmax_or.
Qed.

Lemma lmin_In l : l <> [] -> In (Indicators.lmin l) l.
Proof.
  destruct l as [|x r]; [congruence|]. intros _.
  apply fold_select_In, Qmin_or.
Qed.

Lemma length_true_range df : length (Indicators.true_range df) = length df.
Proof.
  unfold Indicators.true_range.
  rewrite length_map, length_combine, length_shift1, length_map. lia.
Qed.

(** Every true range is defined: [high - low] always is. *)
Lemma true_range_defined df x : In x (Indicators.true_range df) -> x <> None.
Proof.
  unfold Indicators.true_range. intros H. apply in_map_iff in H.
  destruct H as [[b pc] [<- _]]. cbn. discriminate.
Qed.

(** The Donchian value read at position [i], when defined, is one of the
    values at positions [< i]. *)
Lemma donchian_from_prefix agg n xs i m :
  (forall l, l <> [] -> In (agg l) l) -> (1 <= n)%nat ->
  nth i (Indicators.shift1 (Indicators.rolling agg n (map Some xs))) None
    = Some m ->
  In m (firstn i xs).
Proof.
  intros Hagg Hn Hm.
  destruct (Nat.lt_ge_cases i (length xs)) as [Hi|Hi].
  2:{ rewrite nth_overflow in Hm; [discriminate|].
      rewrite length_shift1, length_rolling, length_map. exact Hi. }
  rewrite nth_shift_rolling in Hm by exact Hi.
  destruct i as [|j]; [discriminate|].
  destruct (S j <? n) eqn:E; [discriminate|]. apply Nat.ltb_ge in E.
  injection Hm as <-.
  apply (In_skipn_l _ (S j - n)). rewrite <- window_firstn by exact E.
  exact (Hagg _ (window_nonempty n j xs Hn E ltac:(lia))).
Qed.

Lemma donchian_local agg n xs ys i :
  firstn i xs = firstn i ys -> (i < length xs)%nat -> (i < length ys)%nat ->
  nth i (Indicators.shift1 (Indicators.rolling agg n (map Some xs))) None =
  nth i (Indicators.shift1 (Indicators.rolling agg n (map Some ys))) None.
Proof.
  intros Hf Hx Hy. rewrite !nth_shift_rolling by assumption.
  destruct i as [|j]; [reflexivity|].
  destruct (S j <? n) eqn:E; [reflexivity|]. apply Nat.ltb_ge in E.
  rewrite !(window_firstn n j) by exact E. now rewrite Hf.
Qed.

(** C5 *)
(** C5: the breakout channel read at bar [i] (the trailing-[n] maximum of
    [High], resp. minimum of [Low], shifted by one bar) depends only on the
    bars before [i]: two series that agree before [i] give the same channel
    value at [i].  Hence a bar whose high is above every earlier high sees a
    channel high strictly below its own high, and a bar whose low is below
    every earlier low sees a channel low strictly above its own low. *)
Theorem donchian_no_lookahead n i :
  (1 <= n)%nat ->
  (forall xs ys, firstn i xs = firstn i ys ->
     (i < length xs)%nat -> (i < length ys)%nat ->
     nth i (Indicators.donchian_high n xs) None =
       nth i (Indicators.donchian_high n ys) None /\
     nth i (Indicators.donchian_low n xs) None =
       nth i (Indicators.donchian_low n ys) None) /\
  (forall highs m, Forall (fun y => y < nth i highs 0) (firstn i highs) ->
     nth i (Indicators.donchian_high n highs) None = Some m ->
     m < nth i highs 0) /\
  (forall lows m, Forall (fun y => nth i lows 0 < y) (firstn i lows) ->
     nth i (Indicators.donchian_low n lows) None = Some m ->
     nth i lows 0 < m).
Proof.
  intros Hn. split; [|split].
  - intros xs ys Hf Hx Hy. unfold Indicators.donchian_high,
      Indicators.donchian_low. split; apply donchian_local; assumption.
  - intros highs m Hall Hm.
    apply (donchian_from_prefix _ n highs i m lmax_In Hn) in Hm.
    rewrite Forall_forall in Hall. exact (Hall m Hm).
  - intros lows m Hall Hm.
    apply (donchian_from_prefix _ n lows i m lmin_In Hn) in Hm.
    rewrite Forall_forall in Hall. exact (Hall m Hm).
Qed.

(** C6 *)
(** C6 (amended): for a window [n >= 1] and a position [i] of the input,
    the moving average at [i] is undefined exactly when [i < n - 1]; the
    true range is defined at every position (at position 0 it is
    [high - low]), so the ATR at [i] is also undefined exactly when
    [i < n - 1]. *)
Theorem sma_atr_warmup n i :
  (1 <= n)%nat ->
  (forall xs, (i < length xs)%nat ->
     (nth i (Indicators.SMA xs n) None = None <-> (i < n - 1)%nat)) /\
  (forall df, (i < length df)%nat ->
     (nth i (Indicators.ATR df n) None = None <-> (i < n - 1)%nat)).
Proof.
  intros Hn. split.
  - intros xs Hi. unfold Indicators.SMA.
    rewrite nth_rolling by (rewrite length_map; exact Hi).
    rewrite window_map, all_defined_map_Some.
    destruct (S i <? n) eqn:E; [apply Nat.ltb_lt in E | apply Nat.ltb_ge in E];
      simpl; split; intros H; first [discriminate | lia | reflexivity].
  - intros df Hi. unfold Indicators.ATR.
    rewrite nth_rolling by (rewrite length_true_range; exact Hi).
    destruct (S i <? n) eqn:E; [apply Nat.ltb_lt in E | apply Nat.ltb_ge in E].
    + split; intros; [lia | reflexivity].
    + destruct (all_defined_total
                  (Indicators.window n i (Indicators.true_range df)))
        as [l' El].
      { intros x Hx. eapply true_range_defined, In_window, Hx. }
      rewrite El. simpl. split; intros H; [discriminate | lia].
Qed.

(** C6 counterexample: with [n = 2] the ATR is already defined at
    position [1 = n - 1], because the true range at position 0 is
    [high - low] rather than undefined. *)
Lemma atr_defined_at_n_minus_1 :
  nth 0 (Indicators.true_range Scenarios.bars3) None = Some 3 /\
  nth 1 (Indicators.ATR Scenarios.bars3 2) None <> None.
Proof. split; vm_compute; [reflexivity | discriminate]. Qed.

(** ** Truncation and floor *)

Lemma Qltb_spec x y : Qltb x y = true <-> x < y.
Proof.
  unfold Qltb. rewrite negb_true_iff. split; intros H.
  - apply Qnot_le_lt. intros H'. apply Qle_bool_iff in H'. congruence.
  - destruct (Qle_bool y x) eqn:E; [|reflexivity].
    apply Qle_bool_iff in E. exfalso. exact (Qlt_not_le _ _ H E).
Qed.

Lemma Qeq_bool_false x y : ~ x == y -> Qeq_bool x y = false.
Proof.
  intros H. destruct (Qeq_bool x y) eqn:E; [|reflexivity].
  apply Qeq_bool_iff in E. contradiction.
Qed.

Lemma Qtrunc_nonneg q : 0 <= q -> Qtrunc q = Qfloor q.
Proof.
  destruct q as [a b]. unfold Qle. simpl. intros H.
  unfold Qtrunc, Qfloor. simpl. apply Z.quot_div_nonneg; lia.
Qed.

Lemma Qtrunc_neg q : q < 0 -> (Qtrunc q <= 0)%Z.
Proof.
  destruct q as [a b]. unfold Qlt. simpl. intros H. unfold Qtrunc. simpl.
  rewrite <- (Z.opp_involutive a). rewrite Z.quot_opp_l by lia.
  pose proof (Z.quot_pos (- a) (Zpos b)). lia.
Qed.

Lemma Qfloor_ge1 q : (1 <= Qfloor q)%Z <-> 1 <= q.
Proof.
  split; intros H.
  - apply Qle_trans with (inject_Z (Qfloor q)); [|apply Qfloor_le].
    change 1 with (inject_Z 1). rewrite <- Zle_Qle. exact H.
  - change 1%Z with (Qfloor 1). now apply Qfloor_resp_le.
Qed.

Lemma Qtrunc_ge1 q : (1 <= Qtrunc q)%Z -> Qtrunc q = Qfloor q.
Proof.
  intros H. destruct (Qlt_le_dec q 0) as [Hq|Hq].
  - pose proof (Qtrunc_neg q Hq). lia.
  - now apply Qtrunc_nonneg.
Qed.

Lemma Qtrunc_ge1_iff q : (1 <= Qtrunc q)%Z <-> (1 <= Qfloor q)%Z.
Proof.
  split; intros H.
  - now rewrite <- Qtrunc_ge1.
  - rewrite Qtrunc_nonneg; [exact H|].
    apply Qfloor_ge1 in H. lra.
Qed.

(** [floor (2x)] is [2 floor x] or [2 floor x + 1]. *)
Lemma Qfloor_double x :
  Qfloor (2 * x) = (2 * Qfloor x)%Z \/ Qfloor (2 * x) = (2 * Qfloor x + 1)%Z.
Proof.
  pose proof (Qfloor_le x) as H1. pose proof (Qlt_floor x) as H2.
  pose proof (Qfloor_le (2 * x)) as H3. pose proof (Qlt_floor (2 * x)) as H4.
  rewrite inject_Z_plus in H2, H4. change (inject_Z 1) with 1 in H2, H4.
  assert (L : (2 * Qfloor x <= Qfloor (2 * x))%Z).
  { rewrite <- (Qfloor_Z (2 * Qfloor x)). apply Qfloor_resp_le.
    rewrite inject_Z_mult. change (inject_Z 2) with 2. lra. }
  assert (U : (Qfloor (2 * x) < 2 * Qfloor x + 2)%Z).
  { rewrite Zlt_Qlt, inject_Z_plus, inject_Z_mult.
    change (inject_Z 2) with 2. lra. }
  lia.
Qed.

Lemma Qfloor_wd x y : x == y -> Qfloor x = Qfloor y.
Proof.
  intros H. apply Z.le_antisymm; apply Qfloor_resp_le; rewrite H; apply Qle_refl.
Qed.

(** ** The entry decision of [next] *)

Section FlatEntry.
Import Engine.

(** In the flat state with a positive price and a non-zero stop distance
    [next] raises nothing and leaves no open trade; its order, if any,
    has the size [min(int(E*r/d), int(E*0.95/price))], and there is no
    order when that size is below 1. *)
Lemma flat_next_trunc v p E b a :
  0 < price b -> atr b = Some a -> ~ a * atr_multiplier p == 0 ->
  exists o, next v p E [] b = inr (o, []) /\
    ((Z.min (Qtrunc (E * risk_per_trade p / (a * atr_multiplier p)))
            (Qtrunc (E * (95 # 100) / price b)) < 1)%Z -> o = None) /\
    (forall s, order_size o = Some s ->
       s = Z.min (Qtrunc (E * risk_per_trade p / (a * atr_multiplier p)))
                 (Qtrunc (E * (95 # 100) / price b))).
Proof.
  intros Hp Ha Hd.
  assert (Hp0 : ~ price b == 0) by lra.
  unfold next.
  destruct (len_data b <? warmup v p); [exists None; repeat split; discriminate|].
  destruct (ma b) as [m|]; [|exists None; repeat split; discriminate].
  unfold flat_entry. rewrite Ha. cbn [option_map].
  rewrite (Qeq_bool_false _ _ Hd).
  unfold py_int_div. rewrite (Qeq_bool_false _ _ Hd), (Qeq_bool_false _ _ Hp0).
  set (u := Z.min _ _).
  destruct (u <? 1)%Z eqn:Eu.
  - exists None. repeat split; discriminate.
  - apply Z.ltb_ge in Eu.
    destruct (_ && _ && _); [|destruct (_ && _ && _)];
      eexists; (split; [reflexivity|]); split;
      try (intros; lia); simpl; intros s Hs; congruence.
Qed.

(** The same with [int] on non-negative quotients written as [floor]:
    an emitted size [s] is [min(floor(E*r/d), floor(E*0.95/price))],
    at least 1 and at most the capital cap. *)
Lemma flat_next_floor v p E b a :
  0 < price b -> atr b = Some a -> 0 < a * atr_multiplier p ->
  exists o, next v p E [] b = inr (o, []) /\
    ((Z.min (Qfloor (E * risk_per_trade p / (a * atr_multiplier p)))
            (Qfloor (E * (95 # 100) / price b)) < 1)%Z -> o = None) /\
    (forall s, order_size o = Some s ->
       s = Z.min (Qfloor (E * risk_per_trade p / (a * atr_multiplier p)))
                 (Qfloor (E * (95 # 100) / price b)) /\
       (1 <= s)%Z /\ (s <= Qfloor (E * (95 # 100) / price b))%Z).
Proof.
  intros Hp Ha Hd.
  destruct (flat_next_trunc v p E b a Hp Ha ltac:(lra)) as (o & Hn & Hnone & Hsize).
  set (x := E * risk_per_trade p / (a * atr_multiplier p)) in *.
  set (y := E * (95 # 100) / price b) in *.
  pose proof (Qtrunc_ge1_iff x) as Ix. pose proof (Qtrunc_ge1_iff y) as Iy.
  exists o. split; [exact Hn|]. split.
  - intros H. apply Hnone.
    destruct (Z.lt_ge_cases (Qtrunc x) 1); destruct (Z.lt_ge_cases (Qtrunc y) 1);
      lia.
  - intros s Hs. pose proof (Hsize s Hs) as Es.
    assert (Hs1 : (1 <= s)%Z).
    { destruct (Z.lt_ge_cases s 1) as [Hlt|]; [|assumption].
      rewrite Hnone in Hs by lia. discriminate. }
    rewrite (Qtrunc_ge1 x), (Qtrunc_ge1 y) in Es by lia. lia.
Qed.

End FlatEntry.

(** C1 *)
(** C1: on a bar evaluated in the flat state with price [p > 0] and stop
    distance [d = atr * atr_multiplier > 0], [next] raises nothing; with
    [units = min(floor(E*r/d), floor(E*0.95/p))] (the capital ceiling
    applied after the risk-based size, as a cap) no order is emitted when
    [units < 1], and every emitted order has size [units], which is at
    least 1 and at most [floor(E*0.95/p)].  Python's [int] truncation
    coincides with [floor] on every emitted size. *)
Theorem risk_sizing_capped v p E b a :
  0 < Engine.price b -> Engine.atr b = Some a ->
  0 < a * Engine.atr_multiplier p ->
  exists o, Engine.next v p E [] b = inr (o, []) /\
    ((Z.min (Qfloor (E * Engine.risk_per_trade p / (a * Engine.atr_multiplier p)))
            (Qfloor (E * (95 # 100) / Engine.price b)) < 1)%Z -> o = None) /\
    (forall s, Engine.order_size o = Some s ->
       s = Z.min (Qfloor (E * Engine.risk_per_trade p / (a * Engine.atr_multiplier p)))
                 (Qfloor (E * (95 # 100) / Engine.price b)) /\
       (1 <= s)%Z /\ (s <= Qfloor (E * (95 # 100) / Engine.price b))%Z).
Proof. exact (flat_next_floor v p E b a). Qed.

(** The part of the entry gate that holds: a stop distance [d <= 0] (zero,
    or negative through a negative multiplier) never leads to an entry,
    given a positive price and a non-negative risk fraction. *)
Lemma nonpositive_stop_no_entry v p E b a :
  0 < Engine.price b -> 0 <= Engine.risk_per_trade p ->
  Engine.atr b = Some a -> a * Engine.atr_multiplier p <= 0 ->
  Engine.next v p E [] b = inr (None, []).
Proof.
  intros Hp Hr Ha Hd.
  destruct (Qeq_dec (a * Engine.atr_multiplier p) 0) as [H0|H0].
  - unfold Engine.next.
    destruct (_ <? _); [reflexivity|]. destruct (Engine.ma b); [|reflexivity].
    unfold Engine.flat_entry. rewrite Ha. cbn [option_map].
    apply Qeq_bool_iff in H0. rewrite H0. reflexivity.
  - destruct (flat_next_trunc v p E b a Hp Ha H0) as (o & Hn & Hnone & _).
    rewrite Hn. rewrite Hnone; [reflexivity|].
    set (d := a * Engine.atr_multiplier p) in *.
    assert (Hdn : d < 0) by (destruct (Qlt_le_dec d 0); [assumption|];
                             exfalso; apply H0; lra).
    assert (Hinv : / d < 0).
    { pose proof (Qmult_inv_r d H0). nra. }
    pose proof (Qtrunc_ge1_iff (E * Engine.risk_per_trade p / d)) as Ix.
    pose proof (Qtrunc_ge1_iff (E * (95 # 100) / Engine.price b)) as Iy.
    pose proof (Qfloor_ge1 (E * Engine.risk_per_trade p / d)) as Fx.
    pose proof (Qfloor_ge1 (E * (95 # 100) / Engine.price b)) as Fy.
    assert (Hpinv : 0 < / Engine.price b) by (apply Qinv_lt_0_compat; exact Hp).
    destruct (Qlt_le_dec E 0) as [HE|HE].
    + assert (E * (95 # 100) / Engine.price b < 1).
      { unfold Qdiv. nra. }
      assert (Ty : (Qtrunc (E * (95 # 100) / Engine.price b) < 1)%Z).
      { destruct (Z.lt_ge_cases (Qtrunc (E * (95 # 100) / Engine.price b)) 1)
          as [|G]; [assumption|].
        apply Iy, Fy in G. lra. }
      lia.
    + assert (E * Engine.risk_per_trade p / d < 1).
      { unfold Qdiv. assert (0 <= E * Engine.risk_per_trade p) by nra. nra. }
      assert (Tx : (Qtrunc (E * Engine.risk_per_trade p / d) < 1)%Z).
      { destruct (Z.lt_ge_cases (Qtrunc (E * Engine.risk_per_trade p / d)) 1)
          as [|G]; [assumption|].
        apply Ix, Fx in G. lra. }
      lia.
Qed.

(** C3 *)
(** C3 (failing input): [RiskManagedStrategy] with [n_atr = 300] on the
    205-bar ramp.  At the 205th bar the warm-up guard passes and the trend
    filter is defined, but the ATR is still NaN; the safety gate
    [if stop_distance == 0] lets the NaN through and
    [int(risk_amount / stop_distance)] raises [ValueError] instead of
    skipping the entry, whatever the ADX value. *)
Theorem nan_atr_entry_raises adx_value :
  Engine.atr (Engine.view_at Scenarios.long_atr_params Scenarios.ramp 204 adx_value)
    = None /\
  Engine.ma (Engine.view_at Scenarios.long_atr_params Scenarios.ramp 204 adx_value)
    <> None /\
  Engine.next Engine.RiskManaged Scenarios.long_atr_params 10000000 []
    (Engine.view_at Scenarios.long_atr_params Scenarios.ramp 204 adx_value)
    = inl Engine.ValueError.
Proof. split; [|split]; vm_compute; [reflexivity | discriminate | reflexivity]. Qed.

(** ** The warm-up guard *)

(** C7 (amended): [next] skips all entry and stop logic (no order, trades
    untouched) while fewer than [ma_period + 5] bars have been seen, in
    both strategy classes, and on any bar where the trend filter is
    undefined; [RiskManagedStrategy] also skips while fewer than
    [donchian_period + 5] bars have been seen.  The ATR window is not part
    of the guard. *)
Theorem warmup_guard_skips v p E trades b :
  ((Engine.len_data b < Engine.ma_period p + 5)%nat \/
   Engine.ma b = None \/
   (v = Engine.RiskManaged /\
    (Engine.len_data b < Engine.donchian_period p + 5)%nat)) ->
  Engine.next v p E trades b = inr (None, trades).
Proof.
  intros H. unfold Engine.next.
  destruct (Engine.len_data b <? Engine.warmup v p) eqn:E1; [reflexivity|].
  apply Nat.ltb_ge in E1.
  destruct H as [H|[H|[-> H]]].
  - exfalso. destruct v; simpl in E1; lia.
  - now rewrite H.
  - exfalso. simpl in E1. lia.
Qed.

(** C7 counterexample: with [n_atr = 300] the claim's bound
    [max(windows) + 5 = 305] is not reached at the 205th bar, the ATR is
    still undefined there, yet [next] does not skip: it runs the entry
    logic (which raises). *)
Lemma guard_passes_during_atr_warmup :
  (Engine.len_data (Engine.view_at Scenarios.long_atr_params Scenarios.ramp 204 None)
     < Nat.max (Engine.n_atr Scenarios.long_atr_params)
         (Nat.max (Engine.ma_period Scenarios.long_atr_params)
                  (Engine.donchian_period Scenarios.long_atr_params)) + 5)%nat /\
  Engine.atr (Engine.view_at Scenarios.long_atr_params Scenarios.ramp 204 None)
    = None /\
  Engine.next Engine.RiskManaged Scenarios.long_atr_params 10000000 []
    (Engine.view_at Scenarios.long_atr_params Scenarios.ramp 204 None)
    <> inr (None, []).
Proof.
  split; [apply Nat.ltb_lt; vm_compute; reflexivity|].
  split; vm_compute; [reflexivity | discriminate].
Qed.

(** ** Risk fraction and size *)

(** C8 counterexample: on the same bar and equity, risk 1% gives 25 units
    and risk 2% gives 51 units ([int(25.51)] and [int(51.02)]); the
    capital cap (316 units) binds on neither, and [51 <> 2 * 25]. *)
Lemma risk_doubling_not_exact :
  Engine.next Engine.RiskManaged
    (Scenarios.with_risk Engine.risk_managed_defaults (1 # 100)) 10000000 []
    Scenarios.entry_view = inr (Some (Engine.Buy 25 26080), []) /\
  Engine.next Engine.RiskManaged
    (Scenarios.with_risk Engine.risk_managed_defaults (2 # 100)) 10000000 []
    Scenarios.entry_view = inr (Some (Engine.Buy 51 26080), []) /\
  (Qfloor (10000000 * (2 # 100) / (980 * 4)) <=
     Qfloor (10000000 * (95 # 100) / 30000))%Z /\
  (51 <> 2 * 25)%Z.
Proof.
  split; [vm_compute; reflexivity|]. split; [vm_compute; reflexivity|].
  split; [apply Z.leb_le; vm_compute; reflexivity | lia].
Qed.

(** C8 (amended): for two parameter records that differ only in the risk
    fraction (1% and 2%), evaluated flat on the same bar with the same
    equity, a positive price and a positive stop distance [d], when both
    emit an order and the capital cap binds on neither, the sizes are
    [s1 = floor(E*0.01/d)] and [s2 = floor(E*0.02/d)], and [s2] is [2*s1]
    or [2*s1 + 1]. *)
Theorem risk_doubling_sizes v p E b a o1 o2 ts1 ts2 s1 s2 :
  0 < Engine.price b -> Engine.atr b = Some a ->
  0 < a * Engine.atr_multiplier p ->
  Engine.next v (Scenarios.with_risk p (1 # 100)) E [] b = inr (o1, ts1) ->
  Engine.order_size o1 = Some s1 ->
  Engine.next v (Scenarios.with_risk p (2 # 100)) E [] b = inr (o2, ts2) ->
  Engine.order_size o2 = Some s2 ->
  (Qfloor (E * (1 # 100) / (a * Engine.atr_multiplier p)) <=
     Qfloor (E * (95 # 100) / Engine.price b))%Z ->
  (Qfloor (E * (2 # 100) / (a * Engine.atr_multiplier p)) <=
     Qfloor (E * (95 # 100) / Engine.price b))%Z ->
  s1 = Qfloor (E * (1 # 100) / (a * Engine.atr_multiplier p)) /\
  s2 = Qfloor (E * (2 # 100) / (a * Engine.atr_multiplier p)) /\
  (s2 = 2 * s1 \/ s2 = 2 * s1 + 1)%Z.
Proof.
  intros Hp Ha Hd Hn1 Hs1 Hn2 Hs2 C1 C2.
  destruct (flat_next_floor v (Scenarios.with_risk p (1 # 100)) E b a Hp Ha Hd)
    as (o1' & Hn1' & _ & Sz1).
  destruct (flat_next_floor v (Scenarios.with_risk p (2 # 100)) E b a Hp Ha Hd)
    as (o2' & Hn2' & _ & Sz2).
  rewrite Hn1 in Hn1'. injection Hn1' as -> ->.
  rewrite Hn2 in Hn2'. injection Hn2' as -> ->.
  destruct (Sz1 s1 Hs1) as [E1 _]. destruct (Sz2 s2 Hs2) as [E2 _].
  cbn [Scenarios.with_risk Engine.risk_per_trade Engine.atr_multiplier] in E1, E2.
  set (d := a * Engine.atr_multiplier p) in *.
  rewrite Z.min_l in E1 by exact C1. rewrite Z.min_l in E2 by exact C2.
  split; [exact E1|]. split; [exact E2|].
  assert (Hx : E * (2 # 100) / d == 2 * (E * (1 # 100) / d)).
  { unfold Qdiv. ring. }
  rewrite E1, E2, (Qfloor_wd _ _ Hx). apply Qfloor_double.
Qed.

(** ** The trailing stop *)

Section TrailingStop.
Import Engine.

(** With an open trade, [next] raises nothing, places no order and either
    leaves the trade alone (guard) or applies the ratchet to it. *)
Lemma next_open_trade v p E t b :
  next v p E [t] b = inr (None, [t]) \/
  next v p E [t] b = inr (None, [ratchet (price b) (atr b) (atr_multiplier p) t]).
Proof.
  unfold next. destruct (_ <? _); [now left|].
  destruct (ma b); [now right | now left].
Qed.

Lemma ratchet_long price atr mult t :
  is_long t = true ->
  is_long (ratchet price atr mult t) = true /\
  sl t <= sl (ratchet price atr mult t) /\
  (sl (ratchet price atr mult t) <> sl t ->
   exists a, atr = Some a /\ sl (ratchet price atr mult t) = price - a * mult /\
             sl t < price - a * mult).
Proof.
  intros Hl. unfold ratchet. destruct atr as [a|];
    [|repeat split; [assumption | apply Qle_refl | congruence]].
  rewrite Hl. destruct (Qltb (sl t) (price - a * mult)) eqn:Ec.
  - apply Qltb_spec in Ec. simpl. repeat split; [apply Qlt_le_weak; exact Ec|].
    intros _. exists a. auto.
  - repeat split; [assumption | apply Qle_refl | congruence].
Qed.

Lemma ratchet_short price atr mult t :
  is_long t = false ->
  is_long (ratchet price atr mult t) = false /\
  sl (ratchet price atr mult t) <= sl t /\
  (sl (ratchet price atr mult t) <> sl t ->
   exists a, atr = Some a /\ sl (ratchet price atr mult t) = price + a * mult /\
             price + a * mult < sl t).
Proof.
  intros Hl. unfold ratchet. destruct atr as [a|];
    [|repeat split; [assumption | apply Qle_refl | congruence]].
  rewrite Hl. destruct (Qltb (price + a * mult) (sl t)) eqn:Ec.
  - apply Qltb_spec in Ec. simpl. repeat split; [apply Qlt_le_weak; exact Ec|].
    intros _. exists a. auto.
  - repeat split; [assumption | apply Qle_refl | congruence].
Qed.

Lemma HdRel_hd (R : Q -> Q -> Prop) x y l :
  hd_error l = Some y -> R x y -> HdRel R x l.
Proof. destruct l; simpl; intros H; [discriminate|]. injection H as ->. now constructor. Qed.

(** The stop path of one open trade is sorted for any relation that the
    ratchet respects. *)
Lemma stop_path_sorted v p (R : Q -> Q -> Prop) (dir : bool) :
  (forall x, R x x) ->
  (forall price atr mult t, is_long t = dir ->
     is_long (ratchet price atr mult t) = dir /\
     R (sl t) (sl (ratchet price atr mult t))) ->
  forall bars t, is_long t = dir ->
    Sorted R (stop_path v p t bars) /\ hd_error (stop_path v p t bars) = Some (sl t).
Proof.
  intros Hrefl Hstep bars. induction bars as [|[E b] rest IH]; intros t Ht.
  - simpl. split; [repeat constructor | reflexivity].
  - simpl stop_path. split; [|reflexivity].
    destruct (next_open_trade v p E t b) as [Hn|Hn]; rewrite Hn.
    + destruct (IH t Ht) as [S Hd]. constructor; [exact S|].
      eapply HdRel_hd; [exact Hd | apply Hrefl].
    + destruct (Hstep (price b) (atr b) (atr_multiplier p) t Ht) as [Hl Hr].
      destruct (IH _ Hl) as [S Hd]. constructor; [exact S|].
      eapply HdRel_hd; [exact Hd | exact Hr].
Qed.

End TrailingStop.

(** C2 *)
(** C2: within one open position the stop is changed only to a strictly
    tighter candidate ([close - atr * atr_multiplier] above the current stop
    for a long, [close + atr * atr_multiplier] below it for a short), so
    over successive bars the stop of a long is non-decreasing and the stop
    of a short is non-increasing. *)
Theorem trailing_stop_ratchet v p :
  (forall price atr mult t, Engine.is_long t = true ->
     Engine.sl t <= Engine.sl (Engine.ratchet price atr mult t) /\
     (Engine.sl (Engine.ratchet price atr mult t) <> Engine.sl t ->
      exists a, atr = Some a /\
        Engine.sl (Engine.ratchet price atr mult t) = price - a * mult /\
        Engine.sl t < price - a * mult)) /\
  (forall price atr mult t, Engine.is_long t = false ->
     Engine.sl (Engine.ratchet price atr mult t) <= Engine.sl t /\
     (Engine.sl (Engine.ratchet price atr mult t) <> Engine.sl t ->
      exists a, atr = Some a /\
        Engine.sl (Engine.ratchet price atr mult t) = price + a * mult /\
        price + a * mult < Engine.sl t)) /\
  (forall t bars, Engine.is_long t = true ->
     Sorted Qle (Engine.stop_path v p t bars)) /\
  (forall t bars, Engine.is_long t = false ->
     Sorted (fun x y => y <= x) (Engine.stop_path v p t bars)).
Proof.
  split; [|split; [|split]].
  - intros price atr mult t Hl. apply ratchet_long, Hl.
  - intros price atr mult t Hl. apply ratchet_short, Hl.
  - intros t bars Hl.
    apply (stop_path_sorted v p Qle true Qle_refl); [|exact Hl].
    intros price atr mult t' H'. destruct (ratchet_long price atr mult t' H') as (A & B & _).
    split; assumption.
  - intros t bars Hl.
    apply (stop_path_sorted v p (fun x y => y <= x) false Qle_refl); [|exact Hl].
    intros price atr mult t' H'. destruct (ratchet_short price atr mult t' H') as (A & B & _).
    split; assumption.
Qed.

(** ** The objective function *)

(** C4 *)
(** C4: [optim_func] returns the sentinel [-1] for every record with fewer
    than 10 trades or a maximum drawdown below [-20], whatever its return;
    for every other record it returns [Return [%] / |Max. Drawdown [%]|]
    (numpy float division), a finite quotient when the drawdown is not 0. *)
Theorem optim_func_spec s :
  (((Optimizer.n_trades s < 10)%Z \/ Optimizer.max_drawdown s < -20) ->
     Optimizer.optim_func s = Optimizer.Fin (-1)) /\
  ((10 <= Optimizer.n_trades s)%Z -> -20 <= Optimizer.max_drawdown s ->
     Optimizer.optim_func s =
       Optimizer.np_div (Optimizer.return_pct s) (Qabs (Optimizer.max_drawdown s)) /\
     (~ Optimizer.max_drawdown s == 0 ->
        Optimizer.optim_func s =
          Optimizer.Fin (Optimizer.return_pct s / Qabs (Optimizer.max_drawdown s)))).
Proof.
  unfold Optimizer.optim_func. split.
  - intros [H|H].
    + apply Z.ltb_lt in H. now rewrite H.
    + destruct (Optimizer.n_trades s <? 10)%Z; [reflexivity|].
      apply Qltb_spec in H. now rewrite H.
  - intros Hn Hd. apply Z.ltb_ge in Hn. rewrite Hn.
    destruct (Qltb (Optimizer.max_drawdown s) (-20)) eqn:E.
    { apply Qltb_spec in E. lra. }
    split; [reflexivity|]. intros Hz.
    unfold Optimizer.np_div. rewrite Qeq_bool_false; [reflexivity|].
    intros Habs. apply Hz.
    destruct (Qlt_le_dec (Optimizer.max_drawdown s) 0) as [Hneg|Hpos].
    + rewrite Qabs_neg in Habs by lra. lra.
    + rewrite Qabs_pos in Habs by lra. lra.
Qed.

(** C10 *)
(** C10: a record that passes both constraints with a maximum drawdown of
    exactly 0 is scored by a division by zero: the result is no finite
    score ([inf] for a positive return, [-inf] for a negative one, [nan]
    for a zero return). *)
Theorem optim_func_zero_drawdown s :
  (10 <= Optimizer.n_trades s)%Z -> Optimizer.max_drawdown s == 0 ->
  (forall q, Optimizer.optim_func s <> Optimizer.Fin q) /\
  (0 < Optimizer.return_pct s -> Optimizer.optim_func s = Optimizer.PosInf) /\
  (Optimizer.return_pct s < 0 -> Optimizer.optim_func s = Optimizer.NegInf) /\
  (Optimizer.return_pct s == 0 -> Optimizer.optim_func s = Optimizer.NaN).
Proof.
  intros Hn Hd. unfold Optimizer.optim_func.
  apply Z.ltb_ge in Hn. rewrite Hn.
  destruct (Qltb (Optimizer.max_drawdown s) (-20)) eqn:E.
  { apply Qltb_spec in E. lra. }
  unfold Optimizer.np_div.
  assert (Ha : Qeq_bool (Qabs (Optimizer.max_drawdown s)) 0 = true).
  { apply Qeq_bool_iff. rewrite (Qabs_wd _ _ Hd). reflexivity. }
  rewrite Ha.
  destruct (Qltb 0 (Optimizer.return_pct s)) eqn:E1;
    [apply Qltb_spec in E1 | ];
    [|destruct (Qltb (Optimizer.return_pct s) 0) eqn:E2; [apply Qltb_spec in E2|]].
  - split; [intros q; discriminate|].
    split; [reflexivity|]. split; intros H; lra.
  - split; [intros q; discriminate|].
    split; [intros H; lra|]. split; [reflexivity | intros H; lra].
  - split; [intros q; discriminate|].
    split; [intros H; apply Qltb_spec in H; congruence|].
    split; [intros H; apply Qltb_spec in H; congruence | reflexivity].
Qed.

(** ** Witnesses: each theorem applied at a concrete input *)

Lemma risk_sizing_capped_witness :
  0 < Engine.price Scenarios.entry_view /\
  Engine.atr Scenarios.entry_view = Some 980 /\
  0 < 980 * Engine.atr_multiplier Engine.risk_managed_defaults /\
  exists o, Engine.next Engine.RiskManaged Engine.risk_managed_defaults 10000000 []
              Scenarios.entry_view = inr (o, []) /\
            (forall s, Engine.order_size o = Some s -> (1 <= s)%Z).
Proof.
  assert (H1 : 0 < Engine.price Scenarios.entry_view) by (vm_compute; reflexivity).
  assert (H2 : Engine.atr Scenarios.entry_view = Some 980) by reflexivity.
  assert (H3 : 0 < 980 * Engine.atr_multiplier Engine.risk_managed_defaults)
    by (vm_compute; reflexivity).
  split; [exact H1|]. split; [exact H2|]. split; [exact H3|].
  destruct (risk_sizing_capped Engine.RiskManaged Engine.risk_managed_defaults
              10000000 Scenarios.entry_view 980 H1 H2 H3) as (o & Hn & _ & Hs).
  exists o. split; [exact Hn|]. intros s Hos. apply (Hs s Hos).
Defined.

Lemma trailing_stop_ratchet_witness :
  let t0 := Engine.mkTrade true 25 26080 in
  let bars :=
    [(10000000, Engine.mkView 1001 31000 (Some 25000) (Some 30) (Some 1000)
                  (Some 30000) (Some 20000));
     (10000000, Engine.mkView 1002 30500 (Some 25000) (Some 30) (Some 1000)
                  (Some 31000) (Some 20000));
     (10000000, Engine.mkView 1003 32000 (Some 25000) (Some 30) (Some 1000)
                  (Some 31000) (Some 20000))] in
  Engine.stop_path Engine.RiskManaged Engine.risk_managed_defaults t0 bars
    = [26080; 27000; 27000; 28000] /\
  Sorted Qle (Engine.stop_path Engine.RiskManaged Engine.risk_managed_defaults t0 bars).
Proof.
  intros t0 bars. split; [vm_compute; reflexivity|].
  destruct (trailing_stop_ratchet Engine.RiskManaged Engine.risk_managed_defaults)
    as (_ & _ & Hlong & _).
  apply Hlong. reflexivity.
Defined.

Lemma optim_func_spec_witness :
  Optimizer.optim_func (Optimizer.mkStats 5 (-5) 50) = Optimizer.Fin (-1) /\
  Optimizer.optim_func (Optimizer.mkStats 12 (-10) 30) = Optimizer.Fin (30 / 10).
Proof.
  split.
  - apply (proj1 (optim_func_spec (Optimizer.mkStats 5 (-5) 50))).
    left. simpl. lia.
  - apply (proj2 (optim_func_spec (Optimizer.mkStats 12 (-10) 30)));
      simpl; [lia | vm_compute; discriminate | vm_compute; discriminate].
Defined.

Lemma donchian_no_lookahead_witness :
  nth 3 (Indicators.donchian_high 2 [1; 2; 3; 9; 4]) None =
    nth 3 (Indicators.donchian_high 2 [1; 2; 3; 0; 7]) None /\
  3 < nth 3 [1; 2; 3; 9; 4] 0.
Proof.
  destruct (donchian_no_lookahead 2 3 ltac:(lia)) as (Hloc & Hmax & _).
  split.
  - apply (Hloc [1; 2; 3; 9; 4] [1; 2; 3; 0; 7]); simpl; [reflexivity | lia | lia].
  - apply (Hmax [1; 2; 3; 9; 4] 3).
    + repeat constructor.
    + vm_compute. reflexivity.
Defined.

Lemma sma_atr_warmup_witness :
  nth 1 (Indicators.SMA [1; 2; 3; 4] 3) None = None /\
  nth 1 (Indicators.ATR Scenarios.bars3 3) None = None.
Proof.
  destruct (sma_atr_warmup 3 1 ltac:(lia)) as [Hs Ha]. split.
  - apply (Hs [1; 2; 3; 4]); simpl; lia.
  - apply (Ha Scenarios.bars3); simpl; lia.
Defined.

Lemma warmup_guard_skips_witness :
  Engine.next Engine.RiskManaged Engine.risk_managed_defaults 10000000
    [Engine.mkTrade true 25 26080]
    (Engine.mkView 100 31000 (Some 25000) (Some 30) (Some 1000) (Some 30000)
       (Some 20000))
  = inr (None, [Engine.mkTrade true 25 26080]).
Proof.
  apply warmup_guard_skips. left. simpl. lia.
Defined.

Lemma risk_doubling_sizes_witness :
  (25 = Qfloor (10000000 * (1 # 100) / (980 * 4)) /\
   51 = Qfloor (10000000 * (2 # 100) / (980 * 4)) /\
   (51 = 2 * 25 \/ 51 = 2 * 25 + 1))%Z.
Proof.
  apply (risk_doubling_sizes Engine.RiskManaged Engine.risk_managed_defaults 10000000
           Scenarios.entry_view 980
           (Some (Engine.Buy 25 26080)) (Some (Engine.Buy 51 26080)) [] [] 25 51);
    vm_compute; first [reflexivity | discriminate].
Defined.

Lemma optim_func_zero_drawdown_witness :
  Optimizer.optim_func (Optimizer.mkStats 12 0 5) = Optimizer.PosInf.
Proof.
  apply (optim_func_zero_drawdown (Optimizer.mkStats 12 0 5));
    simpl; [lia | reflexivity | vm_compute; reflexivity].
Defined.

(** ** The directional movement index *)

Section DirectionalProofs.
Import Indicators Optimizer Directional.

Lemma Some_inj {A} (x y : A) : Some x = Some y -> x = y.
Proof. congruence. Qed.

Lemma nth_combine_shift {A} (xs : list A) (ys : list (option Q)) i d0 :
  length ys = length xs -> (i < length xs)%nat ->
  nth i (combine xs (shift1 ys)) (d0, None) =
  (nth i xs d0, match i with O => None | S j => nth j ys None end).
Proof.
  intros Hl Hi. rewrite combine_nth by (rewrite length_shift1; auto).
  f_equal. destruct i as [|j]; [apply nth_shift1_0 | apply nth_shift1_S; lia].
Qed.

Lemma length_up df : length (up df) = length df.
Proof. unfold up. rewrite length_map, length_combine, length_shift1, !length_map. lia. Qed.

Lemma length_down df : length (down df) = length df.
Proof. unfold down. rewrite length_map, length_combine, length_shift1, !length_map. lia. Qed.

Lemma nth_up df i d : (i < length df)%nat ->
  nth i (up df) None =
  match i with O => None | S j => Some (High (nth i df d) - High (nth j df d)) end.
Proof.
  intros Hi. unfold up.
  rewrite (nth_map_lt _ _ _ _ (0, None))
    by (rewrite length_combine, length_shift1, !length_map; lia).
  rewrite nth_combine_shift by (rewrite ?length_map; lia).
  rewrite (nth_map_lt _ _ _ _ d) by exact Hi.
  destruct i as [|j]; [reflexivity|].
  rewrite (nth_map_lt _ _ _ _ d) by lia. reflexivity.
Qed.

Lemma nth_down df i d : (i < length df)%nat ->
  nth i (down df) None =
  match i with O => None | S j => Some (Low (nth j df d) - Low (nth i df d)) end.
Proof.
  intros Hi. unfold down.
  rewrite (nth_map_lt _ _ _ _ (0, None))
    by (rewrite length_combine, length_shift1, !length_map; lia).
  rewrite nth_combine_shift by (rewrite ?length_map; lia).
  rewrite (nth_map_lt _ _ _ _ d) by exact Hi.
  destruct i as [|j]; [reflexivity|].
  rewrite (nth_map_lt _ _ _ _ d) by lia. reflexivity.
Qed.

Lemma nth_true_range df i d : (i < length df)%nat ->
  nth i (true_range df) None =
  match i with
  | O => Some (High (nth i df d) - Low (nth i df d))
  | S j => Some (Qmax (Qmax (High (nth i df d) - Low (nth i df d))
                           (Qabs (High (nth i df d) - Close (nth j df d))))
                      (Qabs (Low (nth i df d) - Close (nth j df d))))
  end.
Proof.
  intros Hi. unfold true_range.
  rewrite (nth_map_lt _ _ _ _ (d, None))
    by (rewrite length_combine, length_shift1, !length_map; lia).
  rewrite nth_combine_shift by (rewrite ?length_map; lia).
  destruct i as [|j]; [reflexivity|].
  rewrite (nth_map_lt _ _ _ _ d) by lia. reflexivity.
Qed.

Lemma nth_rolling_Some agg n xs i : (i < length xs)%nat ->
  nth i (rolling agg n (map Some xs)) None =
  if S i <? n then None else Some (agg (window n i xs)).
Proof.
  intros H. rewrite nth_rolling by (rewrite length_map; exact H).
  now rewrite window_map, all_defined_map_Some.
Qed.

Lemma map_Some_defined l :
  (forall x, In x l -> x <> None) -> l = map Some (defined l).
Proof.
  induction l as [|[x|] l IH]; intros H; [reflexivity| |].
  - simpl. f_equal. apply IH. intros y Hy. apply H. now right.
  - exfalso. apply (H None); [now left | reflexivity].
Qed.

(** The true-range column, all of whose values are defined. *)
Lemma true_range_values df :
  true_range df = map Some (defined (true_range df)).
Proof. apply map_Some_defined, true_range_defined. Qed.

Lemma length_trl df : length (defined (true_range df)) = length df.
Proof.
  rewrite <- length_true_range. rewrite (true_range_values df) at 2.
  now rewrite length_map.
Qed.

Lemma nth_trl df i : (i < length df)%nat ->
  nth i (true_range df) None = Some (nth i (defined (true_range df)) 0).
Proof.
  intros H. rewrite (true_range_values df) at 1.
  rewrite (nth_map_lt _ _ _ _ 0) by (rewrite length_trl; exact H). reflexivity.
Qed.

Lemma window1 {A} i (l : list A) d :
  (i < length l)%nat -> window 1 i l = [nth i l d].
Proof.
  unfold window. replace (S i - 1)%nat with i by lia. revert i.
  induction l as [|x l IH]; intros i H; [simpl in H; lia|].
  destruct i as [|i]; [reflexivity|]. cbn [skipn nth].
  apply IH. simpl in H. lia.
Qed.

(** [rolling(1)] applies the aggregate to each value alone. *)
Lemma rolling1 agg xs :
  rolling agg 1 xs = map (option_map (fun t => agg [t])) xs.
Proof.
  apply nth_ext with None None; [now rewrite length_rolling, length_map|].
  intros i Hi. rewrite length_rolling in Hi.
  rewrite nth_rolling by exact Hi.
  rewrite (nth_map_lt _ _ _ _ None) by exact Hi.
  change (S i <? 1) with false. cbv iota.
  rewrite (window1 i xs None) by exact Hi.
  destruct (nth i xs None); reflexivity.
Qed.

(** [ATR(df, 1).values]: each true range, as a one-value mean. *)
Lemma ATR1 df :
  ATR df 1 = map Some (map (fun t => mean [t]) (defined (true_range df))).
Proof.
  pose proof (true_range_values df) as E. unfold ATR. rewrite rolling1.
  set (trl := defined (true_range df)) in *. rewrite E.
  rewrite !map_map. reflexivity.
Qed.

Lemma mean_single t : mean [t] == t.
Proof. unfold mean, sum. cbn [fold_right length]. field. Qed.

Lemma wf_nth df k d : forallb well_formed df = true -> (k < length df)%nat ->
  Low (nth k df d) <= Close (nth k df d) /\ Close (nth k df d) <= High (nth k df d).
Proof.
  intros H Hk. rewrite forallb_forall in H.
  specialize (H _ (nth_In df d Hk)). unfold well_formed in H.
  apply andb_true_iff in H as [H1 H2]. split; apply Qle_bool_iff; assumption.
Qed.

Lemma nth_pos_dm df i : (i < length df)%nat ->
  nth i (pos_dm df) 0 = dm (nth i (up df) None) (nth i (down df) None).
Proof.
  intros H. unfold pos_dm.
  rewrite (nth_map_lt _ _ _ _ (None, None))
    by (rewrite length_combine, length_up, length_down; lia).
  rewrite combine_nth by (now rewrite length_up, length_down). reflexivity.
Qed.

Lemma nth_neg_dm df i : (i < length df)%nat ->
  nth i (neg_dm df) 0 = dm (nth i (down df) None) (nth i (up df) None).
Proof.
  intros H. unfold neg_dm.
  rewrite (nth_map_lt _ _ _ _ (None, None))
    by (rewrite length_combine, length_up, length_down; lia).
  rewrite combine_nth by (now rewrite length_up, length_down). reflexivity.
Qed.

Lemma length_pos_dm df : length (pos_dm df) = length df.
Proof. unfold pos_dm. rewrite length_map, length_combine, length_up, length_down. lia. Qed.

Lemma length_neg_dm df : length (neg_dm df) = length df.
Proof. unfold neg_dm. rewrite length_map, length_combine, length_up, length_down. lia. Qed.

Lemma dm_cases a b :
  dm a b = 0 \/
  exists x, a = Some x /\ 0 < x /\ dm a b = x /\ gt_nan (Some x) b = true.
Proof.
  unfold dm. destruct a as [x|]; [|now left].
  destruct (gt_nan (Some x) b) eqn:G; [|now left].
  destruct (Qltb 0 x) eqn:P; [|now left].
  right. exists x. apply Qltb_spec in P. auto.
Qed.

Lemma dm_nonneg a b : 0 <= dm a b.
Proof.
  destruct (dm_cases a b) as [E|(x & _ & Hx & E & _)]; rewrite E;
    [apply Qle_refl | apply Qlt_le_weak; exact Hx].
Qed.

Lemma dm_excl a b : dm a b = 0 \/ dm b a = 0.
Proof.
  destruct (dm_cases a b) as [E|(x & Ea & Hx & _ & Gx)]; [now left|].
  destruct (dm_cases b a) as [E|(y & Eb & Hy & _ & Gy)]; [now right|].
  subst. apply Qltb_spec in Gx, Gy. lra.
Qed.

Lemma dm_None_r a : dm a None = 0.
Proof. now destruct a. Qed.

(** On well-formed bars, both directional movements of a bar are
    bounded by its true range. *)
Lemma dm_le_tr df k : forallb well_formed df = true -> (k < length df)%nat ->
  0 <= nth k (defined (true_range df)) 0 /\
  nth k (pos_dm df) 0 <= nth k (defined (true_range df)) 0 /\
  nth k (neg_dm df) 0 <= nth k (defined (true_range df)) 0.
Proof.
  intros Hwf Hk. set (d := mkBar 0 0 0 0 0).
  set (t := nth k (defined (true_range df)) 0).
  assert (Ht : nth k (true_range df) None = Some t) by (apply nth_trl; exact Hk).
  clearbody t.
  rewrite (nth_true_range df k d Hk) in Ht.
  rewrite nth_pos_dm, nth_neg_dm by exact Hk.
  rewrite (nth_up df k d Hk), (nth_down df k d Hk).
  destruct (wf_nth df k d Hwf Hk) as [Hlc Hch].
  destruct k as [|j].
  - injection Ht as Ht. rewrite <- Ht. cbn [dm]. lra.
  - injection Ht as Ht.
    destruct (wf_nth df j d Hwf ltac:(lia)) as [Hlc' Hch'].
    set (b := nth (S j) df d) in *. set (pb := nth j df d) in *.
    assert (M1 : High b - Low b <= t)
      by (rewrite <- Ht; eapply Qle_trans; [apply Q.le_max_l | apply Q.le_max_l]).
    assert (M2 : Qabs (High b - Close pb) <= t)
      by (rewrite <- Ht; eapply Qle_trans; [apply Q.le_max_r | apply Q.le_max_l]).
    assert (M3 : Qabs (Low b - Close pb) <= t) by (rewrite <- Ht; apply Q.le_max_r).
    pose proof (Qle_Qabs (High b - Close pb)).
    pose proof (Qle_Qabs (- (Low b - Close pb))).
    pose proof (Qabs_opp (Low b - Close pb)).
    split; [lra|]. split.
    + destruct (dm_cases (Some (High b - High pb)) (Some (Low pb - Low b)))
        as [E|(x & Ex & _ & E & _)]; rewrite E; [lra|].
      injection Ex as <-. lra.
    + destruct (dm_cases (Some (Low pb - Low b)) (Some (High b - High pb)))
        as [E|(x & Ex & _ & E & _)]; rewrite E; [lra|].
      injection Ex as <-. lra.
Qed.

Lemma Forall2_nth_intro {A B} (R : A -> B -> Prop) l1 l2 d1 d2 :
  length l1 = length l2 ->
  (forall k, (k < length l1)%nat -> R (nth k l1 d1) (nth k l2 d2)) ->
  Forall2 R l1 l2.
Proof.
  revert l2. induction l1 as [|x l1 IH]; intros [|y l2] Hl H;
    simpl in Hl; try discriminate; constructor.
  - apply (H 0%nat). simpl. lia.
  - apply IH; [lia|]. intros k Hk. apply (H (S k)). simpl. lia.
Qed.

Lemma Forall2_window {A B} (R : A -> B -> Prop) n i l1 l2 :
  Forall2 R l1 l2 -> Forall2 R (window n i l1) (window n i l2).
Proof.
  intros H. unfold window. generalize (S i - n)%nat as m. intros m.
  assert (Hs : forall m a b, Forall2 R a b -> Forall2 R (skipn m a) (skipn m b)).
  { clear. induction m as [|m IH]; intros a b Hab; [exact Hab|].
    destruct Hab; [constructor|]. apply IH. exact Hab. }
  assert (Hf : forall m a b, Forall2 R a b -> Forall2 R (firstn m a) (firstn m b)).
  { clear. induction m as [|m IH]; intros a b Hab; [constructor|].
    destruct Hab; simpl; constructor; auto. }
  apply Hf, Hs, H.
Qed.

Lemma sum_le_Forall2 l1 l2 : Forall2 Qle l1 l2 -> sum l1 <= sum l2.
Proof.
  induction 1; unfold sum in *; simpl; [apply Qle_refl|].
  apply Qplus_le_compat; assumption.
Qed.

Lemma sum_nonneg l : (forall x, In x l -> 0 <= x) -> 0 <= sum l.
Proof.
  induction l as [|x l IH]; intros H; unfold sum in *; simpl; [apply Qle_refl|].
  pose proof (H x (or_introl eq_refl)).
  pose proof (IH (fun y Hy => H y (or_intror Hy))). lra.
Qed.

Lemma sum_nonpos l : (forall x, In x l -> x <= 0) -> sum l <= 0.
Proof.
  induction l as [|x l IH]; intros H; unfold sum in *; simpl; [apply Qle_refl|].
  pose proof (H x (or_introl eq_refl)).
  pose proof (IH (fun y Hy => H y (or_intror Hy))). lra.
Qed.

Lemma Qltb_ge x y : y <= x -> Qltb x y = false.
Proof. intros H. unfold Qltb. apply Qle_bool_iff in H. now rewrite H. Qed.

Lemma Qeq_bool_neq x y : Qeq_bool x y = false -> ~ x == y.
Proof. intros H C. apply Qeq_bool_iff in C. congruence. Qed.

Lemma length_di a b : length a = length b -> length (di a b) = length a.
Proof. intros H. unfold di. rewrite length_map, length_combine. lia. Qed.

Lemma nth_di a b i : length a = length b -> (i < length a)%nat ->
  nth i (di a b) NaN =
  f_mul (Fin 100) (f_div (of_opt (nth i a None)) (of_opt (nth i b None))).
Proof.
  intros Hl Hi. unfold di.
  rewrite (nth_map_lt _ _ _ _ (None, None)) by (rewrite length_combine; lia).
  rewrite combine_nth by exact Hl. reflexivity.
Qed.

Lemma length_tr_s df n : length (tr_s df n) = length df.
Proof. unfold tr_s. now rewrite length_rolling, ATR1, !length_map, length_trl. Qed.

(** [100 * (s / t)] with [0 <= s <= t]. *)
Lemma di_point s t : 0 <= s -> s <= t ->
  nan_or_percent (f_mul (Fin 100) (f_div (Fin s) (Fin t))).
Proof.
  intros Hs Ht. unfold nan_or_percent. cbn [f_div]. unfold np_div.
  destruct (Qeq_bool t 0) eqn:E.
  - apply Qeq_bool_iff in E.
    rewrite (Qltb_ge 0 s) by lra. rewrite (Qltb_ge s 0) by lra. now left.
  - apply Qeq_bool_neq in E. right. exists (100 * (s / t)). split; [reflexivity|].
    assert (Hp : 0 < t) by (destruct (Qlt_le_dec 0 t); [assumption|]; exfalso; apply E; lra).
    assert (0 <= s / t) by (apply Qle_shift_div_l; [exact Hp | lra]).
    assert (s / t <= 1) by (apply Qle_shift_div_r; [exact Hp | lra]).
    set (r := s / t) in *. lra.
Qed.

(** The rolling sums of a directional movement column and of the true
    range, at a position past the warm-up. *)
Lemma di_sums df n i (dml : list Q) :
  length dml = length df -> (i < length df)%nat ->
  nth i (di (rolling sum n (map Some dml)) (tr_s df n)) NaN =
  if S i <? n then NaN else
  f_mul (Fin 100)
    (f_div (Fin (sum (window n i dml)))
       (Fin (sum (window n i (map (fun t => mean [t]) (defined (true_range df))))))).
Proof.
  intros Hl Hi.
  rewrite nth_di by (rewrite ?length_rolling, ?length_tr_s, ?length_map; lia).
  unfold tr_s. rewrite ATR1.
  rewrite !nth_rolling_Some by (rewrite ?length_map, ?length_trl; lia).
  destruct (S i <? n); reflexivity.
Qed.

Lemma window_sum_bounds df n i (dml : list Q) :
  length dml = length df ->
  (forall k, (k < length df)%nat ->
     0 <= nth k dml 0 <= nth k (defined (true_range df)) 0) ->
  0 <= sum (window n i dml) /\
  sum (window n i dml) <=
    sum (window n i (map (fun t => mean [t]) (defined (true_range df)))).
Proof.
  intros Hl Hb. split.
  - apply sum_nonneg. intros x Hx. apply In_window in Hx.
    apply (In_nth _ _ 0) in Hx as (k & Hk & <-). apply Hb. lia.
  - apply sum_le_Forall2, Forall2_window.
    apply (Forall2_nth_intro _ _ _ 0 0);
      [rewrite length_map, length_trl; exact Hl|].
    intros k Hk. rewrite (nth_map_lt _ _ _ _ 0) by (rewrite length_trl; lia).
    rewrite mean_single. apply Hb. lia.
Qed.

Lemma di_percent df n (dml : list Q) :
  length dml = length df ->
  (forall k, (k < length df)%nat ->
     0 <= nth k dml 0 <= nth k (defined (true_range df)) 0) ->
  Forall nan_or_percent (di (rolling sum n (map Some dml)) (tr_s df n)).
Proof.
  intros Hl Hb. apply Forall_forall. intros x Hx.
  apply (In_nth _ _ NaN) in Hx as (i & Hi & <-).
  rewrite length_di in Hi by (rewrite length_rolling, length_tr_s, length_map; exact Hl).
  rewrite length_rolling, length_map in Hi.
  rewrite di_sums by lia.
  destruct (S i <? n); [now left|].
  destruct (window_sum_bounds df n i dml Hl Hb). now apply di_point.
Qed.

Lemma pos_dm_nonneg df k : 0 <= nth k (pos_dm df) 0.
Proof.
  destruct (Nat.lt_ge_cases k (length df)) as [H|H].
  - rewrite nth_pos_dm by exact H. apply dm_nonneg.
  - rewrite nth_overflow by (rewrite length_pos_dm; exact H). apply Qle_refl.
Qed.

Lemma neg_dm_nonneg df k : 0 <= nth k (neg_dm df) 0.
Proof.
  destruct (Nat.lt_ge_cases k (length df)) as [H|H].
  - rewrite nth_neg_dm by exact H. apply dm_nonneg.
  - rewrite nth_overflow by (rewrite length_neg_dm; exact H). apply Qle_refl.
Qed.

Lemma di_bounds df n :
  forallb well_formed df = true ->
  Forall nan_or_percent (pos_di df n) /\ Forall nan_or_percent (neg_di df n).
Proof.
  intros Hwf. split; apply di_percent;
    try apply length_pos_dm; try apply length_neg_dm;
    intros k Hk; destruct (dm_le_tr df k Hwf Hk) as (H0 & H1 & H2).
  - split; [apply pos_dm_nonneg | exact H1].
  - split; [apply neg_dm_nonneg | exact H2].
Qed.

End DirectionalProofs.

Section DirectionalProofs2.
Import Indicators Optimizer Directional.

(** [100 * (|a - b| / (a + b))] of two DI values. *)
Lemma dx_point a b : nan_or_percent a -> nan_or_percent b ->
  nan_or_percent (f_mul (Fin 100) (f_div (f_abs (f_sub a b)) (f_add a b))).
Proof.
  intros [->|(x & -> & Hx)] [->|(y & -> & Hy)]; try (left; reflexivity).
  unfold nan_or_percent. cbn [f_sub f_neg f_add f_abs f_div]. unfold np_div.
  assert (Hb : Qabs (x + - y) <= x + y) by (apply Qabs_Qle_condition; lra).
  pose proof (Qabs_nonneg (x + - y)).
  destruct (Qeq_bool (x + y) 0) eqn:E.
  - apply Qeq_bool_iff in E.
    rewrite (Qltb_ge 0 (Qabs (x + - y))) by lra.
    rewrite (Qltb_ge (Qabs (x + - y)) 0) by lra. now left.
  - apply Qeq_bool_neq in E. right.
    exists (100 * (Qabs (x + - y) / (x + y))). split; [reflexivity|].
    assert (Hp : 0 < x + y)
      by (destruct (Qlt_le_dec 0 (x + y)); [assumption|]; exfalso; apply E; lra).
    assert (0 <= Qabs (x + - y) / (x + y)) by (apply Qle_shift_div_l; [exact Hp | lra]).
    assert (Qabs (x + - y) / (x + y) <= 1) by (apply Qle_shift_div_r; [exact Hp | lra]).
    set (r := Qabs (x + - y) / (x + y)) in *. lra.
Qed.

Lemma dx_bounds df n :
  forallb well_formed df = true -> Forall nan_or_percent (dx df n).
Proof.
  intros Hwf. destruct (di_bounds df n Hwf) as [HP HN].
  unfold dx. apply Forall_forall. intros z Hz.
  apply in_map_iff in Hz as ([a b] & <- & Hin). apply dx_point.
  - eapply Forall_forall; [exact HP | eapply in_combine_l; exact Hin].
  - eapply Forall_forall; [exact HN | eapply in_combine_r; exact Hin].
Qed.

Lemma length_pos_di df n : length (pos_di df n) = length df.
Proof.
  unfold pos_di, pos_dm_s. rewrite length_di; rewrite ?length_rolling, ?length_map, ?length_tr_s;
    apply length_pos_dm.
Qed.

Lemma length_neg_di df n : length (neg_di df n) = length df.
Proof.
  unfold neg_di, neg_dm_s. rewrite length_di; rewrite ?length_rolling, ?length_map, ?length_tr_s;
    apply length_neg_dm.
Qed.

Lemma length_dx df n : length (dx df n) = length df.
Proof. unfold dx. rewrite length_map, length_combine, length_pos_di, length_neg_di. lia. Qed.

(** During the warm-up of the rolling sums, DX is NaN. *)
Lemma dx_warmup df n k :
  (k < length df)%nat -> (S k < n)%nat -> nth k (dx df n) NaN = NaN.
Proof.
  intros Hk Hn. unfold dx.
  rewrite (nth_map_lt _ _ _ _ (NaN, NaN))
    by (rewrite length_combine, length_pos_di, length_neg_di; lia).
  rewrite combine_nth by (now rewrite length_pos_di, length_neg_di).
  unfold pos_di, neg_di, pos_dm_s, neg_dm_s.
  rewrite !di_sums by (rewrite ?length_pos_dm, ?length_neg_dm; lia).
  apply Nat.ltb_lt in Hn. rewrite Hn. reflexivity.
Qed.

Lemma finite_or_nan_percent xs :
  Forall nan_or_percent xs ->
  exists l, finite_or_nan xs = Some l /\ length l = length xs /\
    (forall k, nth k xs NaN = NaN -> nth k l None = None) /\
    (forall y, In (Some y) l -> 0 <= y <= 100).
Proof.
  induction 1 as [|x xs Hx Hxs IH].
  - exists []. split; [reflexivity|]. split; [reflexivity|].
    split; [intros [|k] _; reflexivity | intros y []].
  - destruct IH as (l & E & L & N & B).
    destruct Hx as [->|(q & -> & Hq)].
    + exists (None :: l). simpl. rewrite E. split; [reflexivity|].
      split; [simpl; lia|]. split.
      * intros [|k] Hk; [reflexivity | apply N; exact Hk].
      * intros y [C|C]; [discriminate | apply B; exact C].
    + exists (Some q :: l). simpl. rewrite E. split; [reflexivity|].
      split; [simpl; lia|]. split.
      * intros [|k] Hk; [discriminate | apply N; exact Hk].
      * intros y [C|C]; [injection C as <-; exact Hq | apply B; exact C].
Qed.

Lemma skipn_nth_cons {A} m (l : list A) d :
  (m < length l)%nat -> skipn m l = nth m l d :: skipn (S m) l.
Proof.
  revert m. induction l as [|x l IH]; intros m H; [simpl in H; lia|].
  destruct m as [|m]; [reflexivity|]. cbn [skipn nth].
  apply IH. simpl in H. lia.
Qed.

(** A window whose first value is NaN gives NaN. *)
Lemma all_defined_window_None n i l :
  (1 <= n)%nat -> (S i - n < length l)%nat -> nth (S i - n) l None = None ->
  all_defined (window n i l) = None.
Proof.
  intros Hn Hl Hm. unfold window.
  rewrite (skipn_nth_cons _ _ None Hl), Hm.
  destruct n as [|n]; [lia|]. reflexivity.
Qed.

Lemma all_defined_In l w y : all_defined l = Some w -> In y w -> In (Some y) l.
Proof.
  revert w. induction l as [|[x|] l IH]; intros w E Hy; simpl in E.
  - injection E as <-. destruct Hy.
  - destruct (all_defined l) as [r|] eqn:Er; [|discriminate].
    injection E as <-. destruct Hy as [<-|Hy]; [now left | right; eapply IH; eauto].
  - discriminate.
Qed.

Lemma length_all_defined l w : all_defined l = Some w -> length w = length l.
Proof.
  revert w. induction l as [|[x|] l IH]; intros w E; simpl in E.
  - now injection E as <-.
  - destruct (all_defined l) as [r|] eqn:Er; [|discriminate].
    injection E as <-. simpl. f_equal. now apply IH.
  - discriminate.
Qed.

Lemma length_pos (w : list Q) :
  w <> [] -> 0 < inject_Z (Z.of_nat (length w)).
Proof.
  intros Hw. change 0 with (inject_Z 0). rewrite <- Zlt_Qlt.
  destruct w; [congruence|]. simpl. lia.
Qed.

Lemma mean_percent w :
  w <> [] -> (forall y, In y w -> 0 <= y <= 100) -> 0 <= mean w <= 100.
Proof.
  intros Hw H.
  assert (Hs : 0 <= sum w /\ sum w <= 100 * inject_Z (Z.of_nat (length w))).
  { clear Hw. induction w as [|y w IH]; [split; discriminate|].
    destruct IH as [IH1 IH2]; [intros z Hz; apply H; now right|].
    destruct (H y (or_introl eq_refl)) as [Hy1 Hy2].
    unfold sum in *. cbn [fold_right length].
    rewrite Nat2Z.inj_succ, <- Z.add_1_r, inject_Z_plus.
    change (inject_Z 1) with 1. split; lra. }
  pose proof (length_pos w Hw). unfold mean.
  split; [apply Qle_shift_div_l | apply Qle_shift_div_r]; lra.
Qed.

Lemma mean_nonneg w : (forall y, In y w -> 0 <= y) -> 0 <= mean w.
Proof.
  intros H. destruct w as [|y r]; [apply Qle_bool_iff; reflexivity|].
  pose proof (length_pos (y :: r) ltac:(discriminate)).
  unfold mean. apply Qle_shift_div_l; [assumption|].
  pose proof (sum_nonneg _ H). lra.
Qed.

Lemma mean_zero w : (forall y, In y w -> y == 0) -> mean w == 0.
Proof.
  intros H. assert (Hs : sum w == 0).
  { induction w as [|y w IH]; [reflexivity|].
    unfold sum in *. cbn [fold_right].
    pose proof (H y (or_introl eq_refl)).
    pose proof (IH (fun z Hz => H z (or_intror Hz))). lra. }
  unfold mean, Qdiv. rewrite Hs. apply Qmult_0_l.
Qed.

(** The rolling mean of a column, read position by position. *)
Lemma rolling_mean_nth n l i x :
  nth i (rolling mean n l) None = Some x ->
  (n <= S i)%nat /\ (i < length l)%nat /\
  exists w, all_defined (window n i l) = Some w /\ x = mean w.
Proof.
  intros Hx. destruct (Nat.lt_ge_cases i (length l)) as [Hi|Hi].
  2:{ rewrite nth_overflow in Hx by (rewrite length_rolling; lia). discriminate. }
  rewrite nth_rolling in Hx by exact Hi.
  destruct (S i <? n) eqn:Ei; [discriminate|]. apply Nat.ltb_ge in Ei.
  destruct (all_defined (window n i l)) as [w|] eqn:Ew; [|discriminate].
  injection Hx as <-. eauto.
Qed.

Lemma well_formed_flat c b : flat_at c b = true -> well_formed b = true.
Proof.
  unfold flat_at, well_formed. intros H.
  apply andb_true_iff in H as [[H1 H2]%andb_true_iff H3].
  apply Qeq_bool_iff in H1, H2, H3.
  apply andb_true_iff. split; apply Qle_bool_iff; lra.
Qed.

Lemma forallb_flat_wf c df :
  forallb (flat_at c) df = true -> forallb well_formed df = true.
Proof.
  rewrite !forallb_forall. intros H b Hb. eapply well_formed_flat, H, Hb.
Qed.

(** On a flat series every true range is zero. *)
Lemma flat_tr_zero c df k :
  forallb (flat_at c) df = true -> (k < length df)%nat ->
  nth k (defined (true_range df)) 0 == 0.
Proof.
  intros Hf Hk. set (d := mkBar 0 0 0 0 0).
  assert (Hb : forall j, (j < length df)%nat ->
            High (nth j df d) == c /\ Low (nth j df d) == c /\ Close (nth j df d) == c).
  { intros j Hj. rewrite forallb_forall in Hf.
    specialize (Hf _ (nth_In df d Hj)). unfold flat_at in Hf.
    apply andb_true_iff in Hf as [[H1 H2]%andb_true_iff H3].
    apply Qeq_bool_iff in H1, H2, H3. auto. }
  destruct (dm_le_tr df k (forallb_flat_wf c df Hf) Hk) as [H0 _].
  pose proof (nth_trl df k Hk) as Ht. rewrite (nth_true_range df k d Hk) in Ht.
  set (t := nth k (defined (true_range df)) 0) in *. clearbody t.
  destruct (Hb k Hk) as (Hh & Hl & Hc).
  destruct k as [|j].
  - apply Some_inj in Ht. rewrite <- Ht. lra.
  - apply Some_inj in Ht. destruct (Hb j ltac:(lia)) as (_ & _ & Hc').
    assert (t <= 0).
    { rewrite <- Ht. apply Q.max_lub; [apply Q.max_lub|].
      - lra.
      - apply Qabs_Qle_condition. lra.
      - apply Qabs_Qle_condition. lra. }
    lra.
Qed.

(** On a flat series both DI columns are NaN everywhere. *)
Lemma flat_di_nan c df n (dml : list Q) :
  forallb (flat_at c) df = true ->
  length dml = length df ->
  (forall k, (k < length df)%nat ->
     0 <= nth k dml 0 <= nth k (defined (true_range df)) 0) ->
  forall i, (i < length df)%nat ->
  nth i (di (rolling sum n (map Some dml)) (tr_s df n)) NaN = NaN.
Proof.
  intros Hf Hl Hb i Hi. rewrite di_sums by assumption.
  destruct (S i <? n); [reflexivity|].
  destruct (window_sum_bounds df n i dml Hl Hb) as [S0 S1].
  assert (S2 : sum (window n i (map (fun t => mean [t]) (defined (true_range df)))) <= 0).
  { apply sum_nonpos. intros x Hx. apply In_window, in_map_iff in Hx as (t & <- & Ht).
    apply (In_nth _ _ 0) in Ht as (k & Hk & <-). rewrite length_trl in Hk.
    rewrite mean_single, (flat_tr_zero c df k Hf Hk). apply Qle_refl. }
  set (s := sum (window n i dml)) in *.
  set (t := sum (window n i (map (fun t => mean [t]) (defined (true_range df))))) in *.
  cbn [f_div]. unfold np_div.
  replace (Qeq_bool t 0) with true by (symmetry; apply Qeq_bool_iff; lra).
  rewrite (Qltb_ge 0 s) by lra. rewrite (Qltb_ge s 0) by lra. reflexivity.
Qed.

Lemma flat_dx_nan c df n k :
  forallb (flat_at c) df = true -> nth k (dx df n) NaN = NaN.
Proof.
  intros Hf. pose proof (forallb_flat_wf c df Hf) as Hwf.
  destruct (Nat.lt_ge_cases k (length df)) as [Hk|Hk].
  2:{ apply nth_overflow. rewrite length_dx. exact Hk. }
  unfold dx.
  rewrite (nth_map_lt _ _ _ _ (NaN, NaN))
    by (rewrite length_combine, length_pos_di, length_neg_di; lia).
  rewrite combine_nth by (now rewrite length_pos_di, length_neg_di).
  unfold pos_di, neg_di, pos_dm_s, neg_dm_s.
  rewrite (flat_di_nan c df n (pos_dm df)), (flat_di_nan c df n (neg_dm df));
    try assumption; try apply length_pos_dm; try apply length_neg_dm;
    [reflexivity| |];
    intros j Hj; destruct (dm_le_tr df j Hwf Hj) as (_ & H1 & H2).
  - split; [apply neg_dm_nonneg | exact H2].
  - split; [apply pos_dm_nonneg | exact H1].
Qed.

Lemma fold_max_ge r x : x <= fold_left Qmax r x.
Proof.
  revert x. induction r as [|y r IH]; intros x; [apply Qle_refl|].
  simpl. eapply Qle_trans; [apply Q.le_max_l | apply IH].
Qed.

Lemma fold_min_le r x : fold_left Qmin r x <= x.
Proof.
  revert x. induction r as [|y r IH]; intros x; [apply Qle_refl|].
  simpl. eapply Qle_trans; [apply IH | apply Q.le_min_l].
Qed.

End DirectionalProofs2.

Section EngineProofs.
Import Engine.

Lemma ratchet_keeps price atr mult t :
  is_long (ratchet price atr mult t) = is_long t /\
  size (ratchet price atr mult t) = size t.
Proof.
  unfold ratchet. destruct atr; [|auto]. cbv zeta.
  destruct (is_long t) eqn:El; [destruct (Qltb _ _) | destruct (Qltb _ _)];
    simpl; auto.
Qed.


End EngineProofs.

(** ** Extra properties *)

(** Directional movement ([ADX], lines 24-28): on every bar [+DM] and
    [-DM] are non-negative and at most one of them is non-zero; on the
    first bar, where the shifted series are NaN, both are 0. *)
Theorem directional_movement_exclusive df i :
  0 <= nth i (Directional.pos_dm df) 0 /\ 0 <= nth i (Directional.neg_dm df) 0 /\
  (nth i (Directional.pos_dm df) 0 = 0 \/ nth i (Directional.neg_dm df) 0 = 0) /\
  nth 0 (Directional.pos_dm df) 0 = 0 /\ nth 0 (Directional.neg_dm df) 0 = 0.
Proof.
  split; [apply pos_dm_nonneg|]. split; [apply neg_dm_nonneg|]. split.
  - destruct (Nat.lt_ge_cases i (length df)) as [H|H].
    + rewrite nth_pos_dm, nth_neg_dm by exact H. apply dm_excl.
    + left. apply nth_overflow. rewrite length_pos_dm. exact H.
  - destruct df as [|b r]; [split; reflexivity|].
    rewrite nth_pos_dm, nth_neg_dm by (simpl; lia).
    rewrite (nth_up _ 0 b) by (simpl; lia). split; [reflexivity | apply dm_None_r].
Qed.

(** Directional indicators ([ADX], lines 24-36): on bars with
    [low <= close <= high], every value of [+DI] and of [-DI] is NaN or
    lies in [0, 100]; it is never infinite. *)
Theorem di_nan_or_percent df n :
  forallb Directional.well_formed df = true ->
  Forall Directional.nan_or_percent (Directional.pos_di df n) /\
  Forall Directional.nan_or_percent (Directional.neg_di df n).
Proof. exact (di_bounds df n). Qed.


(** ADX ([ADX], line 39): on bars with [low <= close <= high] and
    [n >= 1], the ADX column has one value per bar, each defined value
    lies in [0, 100], and the first [2n - 2] values are NaN. *)
Theorem adx_bounded_after_warmup df n :
  forallb Directional.well_formed df = true -> (1 <= n)%nat ->
  exists l, Directional.ADX df n = Some l /\ length l = length df /\
    (forall i x, nth i l None = Some x -> 0 <= x <= 100) /\
    (forall i, (i < 2 * n - 2)%nat -> nth i l None = None).
Proof.
  intros Hwf Hn.
  destruct (finite_or_nan_percent _ (dx_bounds df n Hwf)) as (l & E & L & N & B).
  rewrite length_dx in L.
  exists (Indicators.rolling Indicators.mean n l). unfold Directional.ADX. rewrite E.
  split; [reflexivity|]. split; [rewrite length_rolling; exact L|]. split.
  - intros i x Hx. apply rolling_mean_nth in Hx as (Hi & Hil & w & Ew & ->).
    apply mean_percent.
    + intros C. subst w. apply length_all_defined in Ew.
      apply (window_nonempty n i l Hn Hi Hil). now destruct (Indicators.window n i l).
    + intros y Hy. apply B. eapply In_window, all_defined_In; eauto.
  - intros i Hi.
    destruct (Nat.lt_ge_cases i (length l)) as [Hil|Hil].
    2:{ apply nth_overflow. rewrite length_rolling. exact Hil. }
    rewrite nth_rolling by exact Hil.
    destruct (S i <? n) eqn:Ei; [reflexivity|]. apply Nat.ltb_ge in Ei.
    rewrite all_defined_window_None; [reflexivity | exact Hn | lia |].
    apply N, dx_warmup; lia.
Qed.

(** ADX on a flat series ([ADX], lines 24-39): when every bar has
    [high = low = close = c], every true range and directional movement
    is 0, so [+DI] and [-DI] are [0/0] = NaN, DX is NaN and, for
    [n >= 1], every ADX value is NaN: the trend-strength filter
    [adx > threshold] never holds. *)
Theorem adx_flat_series_nan c df n :
  forallb (Directional.flat_at c) df = true -> (1 <= n)%nat ->
  exists l, Directional.ADX df n = Some l /\ length l = length df /\
    Forall (fun o => o = None) l.
Proof.
  intros Hf Hn.
  assert (HN : Forall Directional.nan_or_percent (Directional.dx df n)).
  { apply Forall_forall. intros x Hx. apply (In_nth _ _ Optimizer.NaN) in Hx as (k & _ & <-).
    left. apply (flat_dx_nan c). exact Hf. }
  destruct (finite_or_nan_percent _ HN) as (l & E & L & N & _).
  rewrite length_dx in L.
  exists (Indicators.rolling Indicators.mean n l). unfold Directional.ADX. rewrite E.
  split; [reflexivity|]. split; [rewrite length_rolling; exact L|].
  apply Forall_forall. intros o Ho. apply (In_nth _ _ None) in Ho as (i & Hi & <-).
  rewrite length_rolling in Hi. rewrite nth_rolling by exact Hi.
  destruct (S i <? n) eqn:Ei; [reflexivity|]. apply Nat.ltb_ge in Ei.
  rewrite all_defined_window_None; [reflexivity | exact Hn | lia |].
  apply N. apply (flat_dx_nan c). exact Hf.
Qed.

(** [next] with an open position ([if not self.position:] skipped):
    it raises nothing and places no order, and the open trades keep
    their direction and size; only stops can change. *)
Theorem next_open_position_no_order v p E trades b :
  trades <> [] ->
  exists ts, Engine.next v p E trades b = inr (None, ts) /\
    map (fun t => (Engine.is_long t, Engine.size t)) ts =
    map (fun t => (Engine.is_long t, Engine.size t)) trades.
Proof.
  intros H. destruct trades as [|t0 r]; [congruence|]. unfold Engine.next.
  destruct (_ <? _); [eexists; split; reflexivity|].
  destruct (Engine.ma b); [|eexists; split; reflexivity].
  eexists; split; [reflexivity|]. rewrite map_map. apply map_ext. intros t.
  destruct (ratchet_keeps (Engine.price b) (Engine.atr b) (Engine.atr_multiplier p) t)
    as [-> ->]. reflexivity.
Qed.



(** On a flat series ([high = low = close = c] on every bar), once the
    ATR window is full ([1 <= n_atr <= i + 1]), [next] in the flat state
    places no order and raises nothing: the ATR is 0, so the stop
    distance is 0 and [next] returns early. *)
Theorem flat_series_no_entry v p E c df i adx_value :
  forallb (Directional.flat_at c) df = true ->
  (1 <= Engine.n_atr p)%nat -> (Engine.n_atr p <= S i)%nat -> (i < length df)%nat ->
  Engine.next v p E [] (Engine.view_at p df i adx_value) = inr (None, []).
Proof.
  intros Hf Hn Hi Hl.
  assert (Ha : exists a, Engine.atr (Engine.view_at p df i adx_value) = Some a /\ a == 0).
  { cbn [Engine.view_at Engine.atr]. unfold Indicators.ATR.
    rewrite (true_range_values df).
    rewrite nth_rolling_Some by (rewrite length_trl; exact Hl).
    destruct (S i <? Engine.n_atr p) eqn:Ei; [apply Nat.ltb_lt in Ei; lia|].
    eexists; split; [reflexivity|]. apply mean_zero.
    intros y Hy. apply In_window in Hy. apply (In_nth _ _ 0) in Hy as (k & Hk & <-).
    rewrite length_trl in Hk. exact (flat_tr_zero c df k Hf Hk). }
  destruct Ha as (a & Ha & Ha0). unfold Engine.next.
  destruct (_ <? _); [reflexivity|]. destruct (Engine.ma _); [|reflexivity].
  cbv beta iota zeta. unfold Engine.flat_entry. rewrite Ha. cbn [option_map].
  replace (Qeq_bool (a * Engine.atr_multiplier p) 0) with true
    by (symmetry; apply Qeq_bool_iff; rewrite Ha0; apply Qmult_0_l).
  reflexivity.
Qed.

(** [ATR] on bars with [low <= high]: every defined value is
    non-negative. *)
Theorem atr_nonneg df n i a :
  forallb (fun b => Qle_bool (Indicators.Low b) (Indicators.High b)) df = true ->
  nth i (Indicators.ATR df n) None = Some a -> 0 <= a.
Proof.
  intros Hd Ha. unfold Indicators.ATR in Ha. rewrite (true_range_values df) in Ha.
  apply rolling_mean_nth in Ha as (_ & Hi & w & Ew & ->).
  rewrite window_map, all_defined_map_Some in Ew. injection Ew as <-.
  apply mean_nonneg. intros y Hy. apply In_window in Hy.
  apply (In_nth _ _ 0) in Hy as (k & Hk & <-). rewrite length_trl in Hk.
  set (d := Indicators.mkBar 0 0 0 0 0).
  assert (Hlh : Indicators.Low (nth k df d) <= Indicators.High (nth k df d)).
  { rewrite forallb_forall in Hd. apply Qle_bool_iff, Hd, nth_In, Hk. }
  pose proof (nth_trl df k Hk) as Ht. rewrite (nth_true_range df k d Hk) in Ht.
  destruct k as [|j]; apply Some_inj in Ht; rewrite <- Ht; [lra|].
  eapply Qle_trans; [|eapply Qle_trans; [apply Q.le_max_l | apply Q.le_max_l]]. lra.
Qed.

(** The breakout channel ([donchian_high], [donchian_low]) on bars with
    [low <= high] and [n >= 1]: where both are defined, the channel high
    is at least the channel low, so no close is both above the channel
    high and below the channel low. *)
Theorem donchian_channel_ordered df n i h l :
  forallb (fun b => Qle_bool (Indicators.Low b) (Indicators.High b)) df = true ->
  (1 <= n)%nat ->
  nth i (Indicators.donchian_high n (map Indicators.High df)) None = Some h ->
  nth i (Indicators.donchian_low n (map Indicators.Low df)) None = Some l ->
  l <= h.
Proof.
  intros Hd Hn Hh Hl.
  destruct (Nat.lt_ge_cases i (length df)) as [Hi|Hi].
  2:{ rewrite nth_overflow in Hh; [discriminate|].
      unfold Indicators.donchian_high.
      rewrite length_shift1, length_rolling, !length_map. exact Hi. }
  unfold Indicators.donchian_high in Hh. unfold Indicators.donchian_low in Hl.
  rewrite nth_shift_rolling in Hh, Hl by (rewrite length_map; exact Hi).
  destruct i as [|j]; [discriminate|].
  destruct (S j <? n) eqn:E; [discriminate|]. apply Nat.ltb_ge in E.
  apply Some_inj in Hh, Hl. subst h l. rewrite !window_map.
  pose proof (window_nonempty n j df Hn E ltac:(lia)) as Hne.
  pose proof (fun b => In_window b n j df) as Hin.
  destruct (Indicators.window n j df) as [|b r]; [congruence|].
  assert (Hb : Indicators.Low b <= Indicators.High b).
  { rewrite forallb_forall in Hd. apply Qle_bool_iff, Hd, Hin. now left. }
  cbn [map Indicators.lmax Indicators.lmin].
  pose proof (fold_max_ge (map Indicators.High r) (Indicators.High b)).
  pose proof (fold_min_le (map Indicators.Low r) (Indicators.Low b)).
  lra.
Qed.

(** [optim_func] on a record it accepts ([# Trades >= 10], drawdown not
    below -20%, non-zero drawdown): the score is
    [Return / |Max. Drawdown|], and it equals the rejection value -1
    exactly when the return is [-|Max. Drawdown|]; so a score of -1 does
    not tell an accepted run from a rejected one. *)
Theorem optim_func_accepted_score s :
  (10 <= Optimizer.n_trades s)%Z -> -20 <= Optimizer.max_drawdown s ->
  ~ Optimizer.max_drawdown s == 0 ->
  Optimizer.optim_func s =
    Optimizer.Fin (Optimizer.return_pct s / Qabs (Optimizer.max_drawdown s)) /\
  (Optimizer.return_pct s / Qabs (Optimizer.max_drawdown s) == -1 <->
   Optimizer.return_pct s == - Qabs (Optimizer.max_drawdown s)).
Proof.
  intros Hn Hd H0. unfold Optimizer.optim_func.
  replace (Optimizer.n_trades s <? 10)%Z with false by (symmetry; apply Z.ltb_ge; exact Hn).
  rewrite (Qltb_ge (Optimizer.max_drawdown s) (-20)) by exact Hd.
  set (r := Optimizer.return_pct s). set (A := Qabs (Optimizer.max_drawdown s)).
  assert (HA : ~ A == 0).
  { intros C. apply H0. assert (A <= 0) by lra.
    apply Qabs_Qle_condition in H. lra. }
  unfold Optimizer.np_div.
  replace (Qeq_bool A 0) with false
    by (symmetry; destruct (Qeq_bool A 0) eqn:Q; [apply Qeq_bool_iff in Q; contradiction | reflexivity]).
  split; [reflexivity|]. split; intros H.
  - setoid_replace r with (r / A * A) by (field; exact HA). rewrite H. ring.
  - rewrite H. field. exact HA.
Qed.

Lemma di_nan_or_percent_witness :
  forallb Directional.well_formed Scenarios.bars3 = true /\
  Forall Directional.nan_or_percent (Directional.pos_di Scenarios.bars3 2) /\
  Forall Directional.nan_or_percent (Directional.neg_di Scenarios.bars3 2).
Proof.
  split; [reflexivity|]. apply (di_nan_or_percent Scenarios.bars3 2). reflexivity.
Defined.


Lemma adx_bounded_after_warmup_witness :
  forallb Directional.well_formed Scenarios.bars3 = true /\ (1 <= 2)%nat /\
  exists l, Directional.ADX Scenarios.bars3 2 = Some l /\
    length l = length Scenarios.bars3 /\
    (forall i x, nth i l None = Some x -> 0 <= x <= 100) /\
    (forall i, (i < 2 * 2 - 2)%nat -> nth i l None = None).
Proof.
  split; [reflexivity|]. split; [lia|].
  apply (adx_bounded_after_warmup Scenarios.bars3 2); [reflexivity | lia].
Defined.

Lemma adx_flat_series_nan_witness :
  forallb (Directional.flat_at 5) Scenarios.flat_bars = true /\ (1 <= 14)%nat /\
  exists l, Directional.ADX Scenarios.flat_bars 14 = Some l /\
    length l = length Scenarios.flat_bars /\ Forall (fun o => o = None) l.
Proof.
  split; [vm_compute; reflexivity|]. split; [lia|].
  apply (adx_flat_series_nan 5 Scenarios.flat_bars 14); [vm_compute; reflexivity | lia].
Defined.

Lemma next_open_position_no_order_witness :
  [Engine.mkTrade true 3 26000] <> [] /\
  exists ts, Engine.next Engine.RiskManaged Engine.risk_managed_defaults 10000000
               [Engine.mkTrade true 3 26000] Scenarios.entry_view = inr (None, ts) /\
    map (fun t => (Engine.is_long t, Engine.size t)) ts =
    map (fun t => (Engine.is_long t, Engine.size t)) [Engine.mkTrade true 3 26000].
Proof.
  split; [discriminate|].
  apply next_open_position_no_order. discriminate.
Defined.



Lemma flat_series_no_entry_witness :
  forallb (Directional.flat_at 5) Scenarios.flat_bars = true /\
  (1 <= Engine.n_atr Engine.risk_managed_defaults)%nat /\
  (Engine.n_atr Engine.risk_managed_defaults <= 210)%nat /\
  (209 < length Scenarios.flat_bars)%nat /\
  Engine.next Engine.RiskManaged Engine.risk_managed_defaults 10000000 []
    (Engine.view_at Engine.risk_managed_defaults Scenarios.flat_bars 209 (Some 40))
    = inr (None, []).
Proof.
  split; [vm_compute; reflexivity|].
  split; [cbn; lia|]. split; [cbn; lia|]. split; [vm_compute; lia|].
  apply (flat_series_no_entry Engine.RiskManaged Engine.risk_managed_defaults 10000000 5
           Scenarios.flat_bars 209 (Some 40)); [vm_compute; reflexivity | cbn; lia ..].
Defined.

Lemma atr_nonneg_witness :
  forallb (fun b => Qle_bool (Indicators.Low b) (Indicators.High b)) Scenarios.bars3
    = true /\
  nth 2 (Indicators.ATR Scenarios.bars3 2) None = Some (6 # 2) /\ 0 <= 6 # 2.
Proof.
  split; [reflexivity|]. split; [vm_compute; reflexivity|].
  apply (atr_nonneg Scenarios.bars3 2 2); [reflexivity | vm_compute; reflexivity].
Defined.

Lemma donchian_channel_ordered_witness :
  forallb (fun b => Qle_bool (Indicators.Low b) (Indicators.High b)) Scenarios.bars3
    = true /\ (1 <= 1)%nat /\
  nth 2 (Indicators.donchian_high 1 (map Indicators.High Scenarios.bars3)) None
    = Some 13 /\
  nth 2 (Indicators.donchian_low 1 (map Indicators.Low Scenarios.bars3)) None
    = Some 10 /\
  10 <= 13.
Proof.
  split; [reflexivity|]. split; [lia|].
  split; [vm_compute; reflexivity|]. split; [vm_compute; reflexivity|].
  apply (donchian_channel_ordered Scenarios.bars3 1 2);
    [reflexivity | lia | vm_compute; reflexivity | vm_compute; reflexivity].
Defined.

Lemma optim_func_accepted_score_witness :
  (10 <= Optimizer.n_trades (Optimizer.mkStats 12 (-10) (-10)))%Z /\
  -20 <= Optimizer.max_drawdown (Optimizer.mkStats 12 (-10) (-10)) /\
  ~ Optimizer.max_drawdown (Optimizer.mkStats 12 (-10) (-10)) == 0 /\
  Optimizer.optim_func (Optimizer.mkStats 12 (-10) (-10)) =
    Optimizer.Fin (-10 / Qabs (-10)) /\
  (-10 / Qabs (-10) == -1 <-> -10 == - Qabs (-10)).
Proof.
  split; [cbn; lia|]. split; [apply Qle_bool_iff; reflexivity|].
  split; [intros C; apply Qeq_bool_iff in C; discriminate C|].
  apply (optim_func_accepted_score (Optimizer.mkStats 12 (-10) (-10))).
  - cbn; lia.
  - apply Qle_bool_iff; reflexivity.
  - intros C; apply Qeq_bool_iff in C; discriminate C.
Defined.
